(** * Game launcher: discovery, classification and reconciliation

    A shallow embedding of the core of [game_launcher.py]: the string
    helpers the code relies on, the classifier ([is_likely_game],
    [is_likely_game_directory]), the name resolver
    ([get_game_name_from_path]), the two traversal strategies
    ([scan_directory_deep], [scan_directory_shallow]), the
    deduplication / suppression / sort step of [scan_for_games], the
    override documents ([load_favorites], [load_deleted_games]) and the
    commands that mutate the launcher's collections.

    Strings are sequences of 8-bit characters; [lower] is Python's
    [str.lower] on the ASCII range (other characters are left as they
    are).  Paths follow [ntpath] for drive-letter paths. *)

From Stdlib Require Import Ascii.
From Stdlib Require String.
From stdpp Require Import base list strings gmap sorting.

(** ** Python string operations *)

Module Str.

Definition sep : ascii := "\"%char.
Definition altsep : ascii := "/"%char.
Definition colon : ascii := ":"%char.

(** [c.lower()] for one character. *)
Definition lower_char (c : ascii) : ascii :=
  let n := Ascii.nat_of_ascii c in
  if (65 <=? n)%nat && (n <=? 90)%nat then Ascii.ascii_of_nat (n + 32) else c.

(** [s.lower()] *)
Fixpoint lower (s : string) : string :=
  match s with
  | EmptyString => EmptyString
  | String c s' => String (lower_char c) (lower s')
  end.

(** [s.replace(c, '')] for a one-character [c]. *)
Fixpoint remove_char (c : ascii) (s : string) : string :=
  match s with
  | EmptyString => EmptyString
  | String d s' =>
      if Ascii.eqb d c then remove_char c s' else String d (remove_char c s')
  end.

(** [s.replace(c, d)] for one-character [c] and [d]. *)
Fixpoint replace_char (c d : ascii) (s : string) : string :=
  match s with
  | EmptyString => EmptyString
  | String e s' =>
      String (if Ascii.eqb e c then d else e) (replace_char c d s')
  end.

(** [s.startswith(p)] *)
Fixpoint startswith (s p : string) : bool :=
  match p, s with
  | EmptyString, _ => true
  | String _ _, EmptyString => false
  | String a p', String b s' => Ascii.eqb a b && startswith s' p'
  end.

(** [sub in s] *)
Fixpoint contains (sub s : string) : bool :=
  startswith s sub ||
  match s with
  | EmptyString => false
  | String _ s' => contains sub s'
  end.

(** [s.endswith(suf)] *)
Fixpoint endswith (s suf : string) : bool :=
  String.eqb s suf ||
  match s with
  | EmptyString => false
  | String _ s' => endswith s' suf
  end.

(** [s.count(c)] for a one-character [c]. *)
Fixpoint count (c : ascii) (s : string) : nat :=
  match s with
  | EmptyString => 0
  | String d s' => (if Ascii.eqb d c then 1 else 0) + count c s'
  end.

(** [s[:n]] for [0 <= n]. *)
Fixpoint take (n : nat) (s : string) : string :=
  match n, s with
  | S n', String c s' => String c (take n' s')
  | _, _ => EmptyString
  end.

(** [s[n:]] for [0 <= n]. *)
Fixpoint drop (n : nat) (s : string) : string :=
  match n, s with
  | S n', String _ s' => drop n' s'
  | _, _ => s
  end.

(** [s[-1]] when [s] is not empty. *)
Fixpoint last (s : string) : option ascii :=
  match s with
  | EmptyString => None
  | String c EmptyString => Some c
  | String _ s' => last s'
  end.

(** [any(t in s for t in terms)] *)
Definition any_in (terms : list string) (s : string) : bool :=
  existsb (fun t => contains t s) terms.

(** [s in l] for a list of strings. *)
Definition mem (s : string) (l : list string) : bool :=
  existsb (String.eqb s) l.

Definition is_sep (c : ascii) : bool := Ascii.eqb c sep || Ascii.eqb c altsep.

Fixpoint has_sep (s : string) : bool :=
  match s with
  | EmptyString => false
  | String c s' => is_sep c || has_sep s'
  end.

(** [s.rfind(c)]: the last index of [c] in [s], or [-1]. *)
Fixpoint rfind_from (c : ascii) (s : string) (i best : Z) : Z :=
  match s with
  | EmptyString => best
  | String d s' => rfind_from c s' (i + 1)%Z (if Ascii.eqb d c then i else best)
  end.

Definition rfind (c : ascii) (s : string) : Z := rfind_from c s 0%Z (-1)%Z.

Fixpoint all_dots (s : string) : bool :=
  match s with
  | EmptyString => true
  | String c s' => Ascii.eqb c "."%char && all_dots s'
  end.

End Str.

(** ** [ntpath] on drive-letter paths *)

Module Path.

(** [ntpath.splitdrive] on drive-letter paths: a leading [X:] is the
    drive.  (A UNC prefix, which [ntpath] also takes as a drive, is not
    told apart here.) *)
Definition splitdrive (p : string) : string * string :=
  match p with
  | String a (String b rest) =>
      if Ascii.eqb b Str.colon then (String a (String b EmptyString), rest)
      else (EmptyString, p)
  | _ => (EmptyString, p)
  end.

(** [ntpath.join(path, name)] for a [name] that is a directory entry (it
    has no drive and does not start with a separator): a separator is put
    between them unless the part of [path] after the drive is empty or
    already ends with one. *)
Definition join (path name : string) : string :=
  match Str.last (snd (splitdrive path)) with
  | None => path +:+ name
  | Some c =>
      if Str.is_sep c then path +:+ name
      else path +:+ String Str.sep name
  end.

(** The part of [p] after its last separator ([p] itself when it has
    none). *)
Fixpoint after_last_sep (p : string) : string :=
  match p with
  | EmptyString => EmptyString
  | String c p' =>
      if Str.has_sep p' then after_last_sep p'
      else if Str.is_sep c then p' else p
  end.

(** [os.path.basename(p)]: [ntpath.split] drops the drive, then cuts
    after the last separator. *)
Definition basename (p : string) : string :=
  after_last_sep (snd (splitdrive p)).

(** [os.path.splitext(p)[0]]: the extension starts at the last dot, if
    that dot comes after the last separator and some character other than
    a dot stands between them. *)
Definition splitext_root (p : string) : string :=
  let sepIndex := Z.max (Str.rfind Str.sep p) (Str.rfind Str.altsep p) in
  let dotIndex := Str.rfind "."%char p in
  if (sepIndex <? dotIndex)%Z then
    let stem := Str.take (Z.to_nat (dotIndex - sepIndex - 1))
                         (Str.drop (Z.to_nat (sepIndex + 1)) p) in
    if Str.all_dots stem then p else Str.take (Z.to_nat dotIndex) p
  else p.

End Path.

(** ** Game entries *)

(** A game is the dict [{'name': ..., 'path': ...}]. *)
Record game := Game { name : string; path : string }.

#[global] Instance game_eq_dec : EqDecision game.
Proof. solve_decision. Defined.

(** ** NameResolver and Classifier *)

Definition noise_suffixes : list string :=
  [" - Copy"; " (1)"; " (2)"; " (3)"; " - Shortcut"].

Definition generic_names : list string :=
  ["bin"; "game"; "common"; "games"; "steamapps"].

(** One round of the suffix loop: [if name.endswith(suffix): name =
    name[:-len(suffix)]]. *)
Definition strip_suffix (nm suffix : string) : string :=
  if Str.endswith nm suffix
  then Str.take (String.length nm - String.length suffix) nm
  else nm.

Definition get_game_name_from_path (directory filename : string) : string :=
  let dir_name := Path.basename directory in
  let nm := fold_left strip_suffix noise_suffixes dir_name in
  if Str.mem (Str.lower nm) generic_names then Path.splitext_root filename
  else nm.

(** [s.lower().replace(' ', '').replace('-', '').replace('_', '')] *)
Definition clean (s : string) : string :=
  Str.remove_char "_" (Str.remove_char "-" (Str.remove_char " " (Str.lower s))).

Definition skip_words : list string :=
  ["system"; "windows"; "program"; "files"; "data"; "temp"; "cache"; "log";
   "config"; "backup"; "bin"; "lib"; "common"; "shared"; "runtime";
   "framework"; "microsoft"; "adobe"; "google"; "mozilla"; "chrome";
   "nodejs"; "python"; "git"; "docker"; "office"; "visual"; "studio";
   "code"; "notepad"; "calculator"; "paint"; "vlc"; "skype"; "discord";
   "obs"; "zoom"].

Definition is_likely_game_directory (dirname : string) : bool :=
  negb (Str.any_in skip_words (clean dirname)).

Definition blacklist : list string :=
  ["uninstall"; "install"; "setup"; "config"; "update"; "patch"; "launcher_";
   "bootstrap"; "updater"; "patcher"; "installer"; "unins000"; "repair";
   "redist"; "vcredist"; "directx"; "dotnet"; "runtime"; "framework";
   "debug"; "test"; "system32"; "msi"; "dll"; "editor"; "tool"; "utility";
   "crash"].

Definition popular_games : list string :=
  ["fortnite"; "apex"; "valorant"; "csgo"; "dota"; "minecraft"; "skyrim";
   "witcher"; "gtav"; "rdr2"; "forza"; "fifa"; "nba2k"; "doom"; "halo";
   "metro"; "bioshock"; "portal"; "halflife"; "amongus"; "hades";
   "stardewvalley"; "eldenring"; "cyberpunk"].

Definition platform_paths : list string :=
  ["steamapps/common"; "epic games"; "origin games"; "ubisoft"; "riot games";
   "battle.net"; "gog games"; "xbox games"; "rockstar games"].

Definition platform_blocked : list string :=
  ["setup"; "launcher"; "updater"; "uninstall"].

Definition custom_paths : list string :=
  ["downloads\games"; "d:\games"; "c:\games"].

Definition custom_blocked : list string := ["setup"; "installer"; "config"].

Definition generic_parents : list string := ["bin"; "game"; "common"].

Definition is_likely_game (filename path : string) : bool :=
  let filename_clean := clean filename in
  let path_clean := clean path in
  if Str.any_in blacklist filename_clean then false
  else if Str.any_in popular_games filename_clean
          || Str.any_in popular_games path_clean then true
  else
    let is_in_platform :=
      existsb (fun platform =>
                 Str.contains (Str.replace_char "/" "\" platform) path_clean)
              platform_paths in
    if is_in_platform && negb (Str.any_in platform_blocked filename_clean)
    then true
    else if Str.any_in custom_paths path_clean
            && negb (Str.any_in custom_blocked filename_clean)
            && (let parent_dir := Str.lower (Path.basename path) in
                (2 <? String.length parent_dir)%nat
                && negb (Str.mem parent_dir generic_parents))
    then true
    else false.

(** [file.lower().endswith('.exe') and self.is_likely_game(file, root)] *)
Definition qualifies (file root : string) : bool :=
  Str.endswith (Str.lower file) ".exe" && is_likely_game file root.

(** ** The file system as the scanner reads it *)

Set Warnings "-register-all".

(** A directory entry is a file or a directory; a directory whose listing
    fails ([PermissionError], [OSError]) has no content.  The entries of a
    directory are in the order [os.listdir] and [os.scandir] return them. *)
Inductive node :=
| File
| Dir (content : option (list (string * node))).

Definition is_dir (n : node) : bool :=
  match n with Dir _ => true | File => false end.

(** The [files] of one [os.walk] step: the names of the entries that are
    not directories. *)
Definition walk_files (entries : list (string * node)) : list string :=
  map fst (List.filter (fun e => negb (is_dir (snd e))) entries).

(** ** TraversalEngine *)

(** The candidate appended for [file] found in [root]. *)
Definition candidate (root file : string) : game :=
  Game (get_game_name_from_path root file) (Path.join root file).

(** The body of the loop [for file in files] of the deep scan. *)
Definition scan_files (root : string) (files : list string) (games : list game)
  : list game :=
  fold_left
    (fun acc file => if qualifies file root then acc ++ [candidate root file] else acc)
    files games.

(** [root.count(os.sep) - directory.count(os.sep) > 2] *)
Definition too_deep (directory root : string) : bool :=
  (2 <? Z.of_nat (Str.count Str.sep root) - Z.of_nat (Str.count Str.sep directory))%Z.

(** [os.walk(directory)] with the loop body of [scan_directory_deep] run at
    every step: the files of [root] are examined, then [dirs] is emptied
    when [root] is too deep, then the walk goes on into what is left of
    [dirs], in order.  A listing that fails yields no step. *)
Fixpoint walk (directory root : string) (n : node) (games : list game)
  : list game :=
  match n with
  | File => games
  | Dir None => games
  | Dir (Some entries) =>
      let games1 := scan_files root (walk_files entries) games in
      if too_deep directory root then games1
      else
        (fix descend (es : list (string * node)) (acc : list game) : list game :=
           match es with
           | [] => acc
           | (d, sub) :: es' =>
               descend es'
                 (if is_dir sub then walk directory (Path.join root d) sub acc
                  else acc)
           end) entries games1
  end.

Definition scan_directory_deep (directory : string) (n : node)
  (games : list game) : list game :=
  walk directory directory n games.

(** The inner loop of the shallow scan: the first entry of the child that
    qualifies, if any ([break] after the first [append]). *)
Definition first_qualifying (item_path : string) (names : list string)
  : option string :=
  List.find (fun file => qualifies file item_path) names.

(** One round of the outer loop of [scan_directory_shallow]. *)
Definition shallow_item (directory : string) (games : list game)
  (item : string * node) : list game :=
  let item_path := Path.join directory (fst item) in
  if is_dir (snd item) && is_likely_game_directory (fst item) then
    match snd item with
    | Dir (Some entries) =>
        match first_qualifying item_path (map fst entries) with
        | Some file => games ++ [candidate item_path file]
        | None => games
        end
    | _ => games
    end
  else games.

Definition scan_directory_shallow (directory : string) (n : node)
  (games : list game) : list game :=
  match n with
  | Dir (Some items) => fold_left (shallow_item directory) items games
  | _ => games
  end.

(** ** Deduplicator / Reconciler *)

(** [game['name'].lower().replace(' ', '')] *)
Definition dedup_key (g : game) : string :=
  Str.remove_char " " (Str.lower (name g)).

(** One round of the loop over [games] with its [seen] set and its
    [unique_games] list. *)
Definition dedup_step (acc : gset string * list game) (g : game)
  : gset string * list game :=
  let key := dedup_key g in
  if decide (key ∈ acc.1) then acc else ({[key]} ∪ acc.1, acc.2 ++ [g]).

Definition unique_games (games : list game) : list game :=
  (fold_left dedup_step games (∅, [])).2.

(** [[g for g in l if g['path'] not in [d['path'] for d in deleted]]] *)
Definition drop_deleted (deleted l : list game) : list game :=
  filter (λ g, path g ∉ path <$> deleted) l.

(** The key of both [sorted] calls: [x['name'].lower()]. *)
Definition sort_key (g : game) : string := Str.lower (name g).

Definition key_le (g h : game) : bool := String.leb (sort_key g) (sort_key h).

(** [sorted(l, key=lambda x: x['name'].lower())]: Python's sort is stable,
    so an entry goes before the entries that came after it and have the
    same key. *)
Fixpoint insert_by_name (g : game) (l : list game) : list game :=
  match l with
  | [] => [g]
  | h :: l' => if key_le g h then g :: l else h :: insert_by_name g l'
  end.

Definition sorted (l : list game) : list game := foldr insert_by_name [] l.

(** The value [scan_for_games] assigns to [self.games]. *)
Definition reconcile (games deleted : list game) : list game :=
  sorted (drop_deleted deleted (unique_games games)).

(** The reconciliation as the specification words it: an entry is kept
    when no entry before it in the input has its key. *)
Fixpoint first_occurrences_from (before l : list game) : list game :=
  match l with
  | [] => []
  | g :: l' =>
      if decide (dedup_key g ∈ dedup_key <$> before)
      then first_occurrences_from (before ++ [g]) l'
      else g :: first_occurrences_from (before ++ [g]) l'
  end.

Definition first_occurrences (l : list game) : list game :=
  first_occurrences_from [] l.

(** The key the specification's invariant speaks of: lowercase, with
    spaces, hyphens and underscores stripped. *)
Definition normalized_name (g : game) : string := clean (name g).

(** ** The launcher's state and what it does to the outside *)

Record launcher := Launcher {
  games : list game;
  favorites : list game;
  deleted_games : list game;
  filtered_games : list game;
  scanning : bool;
  search : string                 (* the text of [search_var] *)
}.

Definition set_games (v : list game) (s : launcher) : launcher :=
  Launcher v (favorites s) (deleted_games s) (filtered_games s) (scanning s) (search s).
Definition set_favorites (v : list game) (s : launcher) : launcher :=
  Launcher (games s) v (deleted_games s) (filtered_games s) (scanning s) (search s).
Definition set_deleted_games (v : list game) (s : launcher) : launcher :=
  Launcher (games s) (favorites s) v (filtered_games s) (scanning s) (search s).
Definition set_filtered_games (v : list game) (s : launcher) : launcher :=
  Launcher (games s) (favorites s) (deleted_games s) v (scanning s) (search s).
Definition set_scanning (v : bool) (s : launcher) : launcher :=
  Launcher (games s) (favorites s) (deleted_games s) (filtered_games s) v (search s).

Inductive list_type := AllTab | FavoritesTab | DeletedTab.

Inductive document := FavoritesFile | DeletedFile.

Inductive exn := FileError | DecodeError.

Inductive message :=
| Scanning_for_games
| Initializing
| Scanning_root (directory : string) (i total : nat)
| Checking_registry
| No_progress
| Found (total : nat)
| Scan_error
| Game_not_found
| Added_to_favorites (nm : string)
| Removed_from_favorites (nm : string)
| Deleted_game (nm : string)
| Restored_game (nm : string)
| Scanning_custom (directory : string)
| Added_custom (n : nat)
| No_games_in_directory
| Matching (n : nat) (query : string)
| Total (n : nat)
| Launched (p : string)
| Error_loading (d : document) (e : exn).

(** What a method does besides changing the launcher's fields. *)
Inductive event :=
| Status (m : message)                        (* [status_label.config] *)
| Progress (m : message)                      (* [progress_var.set] *)
| Quick_stats (m : message)                   (* [quick_stats.config] *)
| Stats (total favs deleted : nat)            (* [stats_label.config] *)
| Cards (t : list_type) (cards : list (game * bool))
                                              (* the cards of one tab, starred or not *)
| Dump (d : document) (content : list game)   (* [json.dump] into the document *)
| Printed (m : message)                     (* [print] *)
| Thread_start                                (* the scan worker is started *)
| After_update_game_lists.                    (* [root.after(0, self.update_game_lists)] *)

(** A method: a state transformer that also records its events. *)
Definition cmd (A : Type) : Type := launcher → A * launcher * list event.

#[global] Instance cmd_ret : MRet cmd := λ A a s, (a, s, []).
#[global] Instance cmd_bind : MBind cmd := λ A B f m s,
  let '(a, s1, t1) := m s in
  let '(b, s2, t2) := f a s1 in
  (b, s2, t1 ++ t2).

Definition get : cmd launcher := λ s, (s, s, []).
Definition modify (f : launcher → launcher) : cmd unit := λ s, (tt, f s, []).
Definition emit (e : event) : cmd unit := λ s, (tt, s, [e]).
Definition skip : cmd unit := mret tt.

(** The state and the events a method ends with. *)
Definition state_after {A} (c : cmd A) (s : launcher) : launcher := (c s).1.2.
Definition events_of {A} (c : cmd A) (s : launcher) : list event := (c s).2.

(** ** Presentation calls that read the collections *)

(** [any(f['name'] == game['name'] for f in self.favorites)] *)
Definition is_favorite (favs : list game) (g : game) : bool :=
  existsb (fun f => String.eqb (name f) (name g)) favs.

Definition populate_modern_game_list (l : list game) (t : list_type) : cmd unit :=
  s ← get;
  emit (Cards t (map (fun g => (g, is_favorite (favorites s) g)) l)).

Definition populate_favorites_list : cmd unit :=
  s ← get;
  modify (set_favorites (drop_deleted (deleted_games s) (favorites s)));;
  s' ← get;
  populate_modern_game_list (favorites s') FavoritesTab.

Definition populate_deleted_list : cmd unit :=
  s ← get;
  populate_modern_game_list (deleted_games s) DeletedTab.

Definition update_game_lists : cmd unit :=
  s ← get;
  populate_modern_game_list (filtered_games s) AllTab;;
  populate_favorites_list;;
  populate_deleted_list;;
  s' ← get;
  emit (Stats (length (games s')) (length (favorites s')) (length (deleted_games s')));;
  emit (Status (Found (length (games s')))).

Definition filter_games : cmd unit :=
  s ← get;
  let query := Str.lower (search s) in
  modify (set_filtered_games
            (if String.eqb query "" then games s
             else List.filter (fun g => Str.contains query (Str.lower (name g)))
                              (games s)));;
  s' ← get;
  populate_modern_game_list (filtered_games s') AllTab;;
  emit (Quick_stats (if String.eqb query ""
                     then Total (length (games s'))
                     else Matching (length (filtered_games s')) query)).

(** ** Persistence *)

Definition save_favorites : cmd unit :=
  s ← get; emit (Dump FavoritesFile (favorites s)).

Definition save_deleted_games : cmd unit :=
  s ← get; emit (Dump DeletedFile (deleted_games s)).

(** What is found where a document should be.  A document that parses
    holds a list of name and path records; valid JSON of another shape is
    not part of the model. *)
Inductive file_state :=
| Missing
| Unreadable                       (* [open] raises *)
| Malformed                        (* [json.load] raises *)
| Records (content : list game).

Inductive result (A : Type) :=
| Returns (a : A)
| Raises (e : exn).
Arguments Returns {A} a.
Arguments Raises {A} e.

(** [with open(file) as f: json.load(f)] *)
Definition read_document (f : file_state) : result (list game) :=
  match f with
  | Missing | Unreadable => Raises FileError
  | Malformed => Raises DecodeError
  | Records content => Returns content
  end.

(** [os.path.exists(file)] *)
Definition exists_file (f : file_state) : bool :=
  match f with Missing => false | _ => true end.

(** [try: body except Exception as e: handler(e)]; every exception of the
    model is an [Exception]. *)
Definition try_except {A} (body : result A) (handler : exn → result A)
  : result A :=
  match body with
  | Returns a => Returns a
  | Raises e => handler e
  end.

Definition load_favorites (f : file_state) (s : launcher)
  : result (launcher * list event) :=
  try_except
    (if exists_file f then
       match read_document f with
       | Returns content => Returns (set_favorites content s, [])
       | Raises e => Raises e
       end
     else Returns (s, []))
    (fun e => Returns (set_favorites [] s, [Printed (Error_loading FavoritesFile e)])).

Definition load_deleted_games (f : file_state) (s : launcher)
  : result (launcher * list event) :=
  try_except
    (if exists_file f then
       match read_document f with
       | Returns content => Returns (set_deleted_games content s, [])
       | Raises e => Raises e
       end
     else Returns (s, []))
    (fun e => Returns (set_deleted_games [] s, [Printed (Error_loading DeletedFile e)])).

(** The fields as [__init__] sets them before it loads the documents. *)
Definition fresh : launcher := Launcher [] [] [] [] false "".

(** The data part of [__init__]: the fields, then the two loads. *)
Definition init (fav del : file_state) : result (launcher * list event) :=
  match load_favorites fav fresh with
  | Returns (s1, t1) =>
      match load_deleted_games del s1 with
      | Returns (s2, t2) => Returns (s2, t1 ++ t2)
      | Raises e => Raises e
      end
  | Raises e => Raises e
  end.

(** ** Commands on the collections *)

Definition toggle_favorite (g : game) : cmd unit :=
  s ← get;
  let favorite_names := name <$> favorites s in
  (if decide (name g ∈ favorite_names) then
     modify (set_favorites (filter (λ f, name f ≠ name g) (favorites s)));;
     emit (Status (Removed_from_favorites (name g)))
   else
     modify (set_favorites (favorites s ++ [g]));;
     emit (Status (Added_to_favorites (name g))));;
  save_favorites;;
  update_game_lists.

(** [answer] is what [messagebox.askyesno] returns. *)
Definition delete_game (g : game) (answer : bool) : cmd unit :=
  if answer then
    modify (fun s => set_deleted_games (deleted_games s ++ [g]) s);;
    modify (fun s => set_games (filter (λ h, path h ≠ path g) (games s)) s);;
    modify (fun s => set_favorites (filter (λ f, path f ≠ path g) (favorites s)) s);;
    modify (fun s => set_filtered_games
                       (filter (λ h, path h ≠ path g) (filtered_games s)) s);;
    save_deleted_games;;
    save_favorites;;
    update_game_lists;;
    emit (Status (Deleted_game (name g)))
  else skip.

Definition restore_game (g : game) : cmd unit :=
  modify (fun s => set_deleted_games
                     (filter (λ d, path d ≠ path g) (deleted_games s)) s);;
  modify (fun s => set_games (sorted (games s ++ [g])) s);;
  modify (fun s => set_filtered_games (games s) s);;
  filter_games;;
  save_deleted_games;;
  update_game_lists;;
  emit (Status (Restored_game (name g))).

(** ** ScanOrchestrator *)

(** What a scan reads from the machine. *)
Record world := World {
  lookup : string → option node;        (* [None]: [os.path.exists] is false *)
  desktop : string;                     (* [os.path.expanduser("~\\Desktop")] *)
  steam_install_path : option string    (* [None]: the registry query raises *)
}.

Definition game_dirs (w : world) : list string :=
  ["C:\Users\GIGABYTE\Downloads\games";
   "D:\games";
   "C:\Program Files (x86)\Steam\steamapps\common";
   "C:\Program Files\Steam\steamapps\common";
   "C:\Program Files\Epic Games";
   "C:\Program Files (x86)\Epic Games";
   "C:\Program Files\Origin Games";
   "C:\Program Files (x86)\Origin Games";
   "C:\Program Files\EA Games";
   "C:\Program Files (x86)\EA Games";
   "C:\Program Files\Ubisoft";
   "C:\Program Files (x86)\Ubisoft";
   "C:\Riot Games";
   "C:\Program Files (x86)\Battle.net";
   "C:\Program Files\Battle.net";
   "C:\GOG Games";
   "C:\Program Files\GOG Galaxy\Games";
   "C:\XboxGames";
   "C:\Program Files\Rockstar Games";
   "C:\Program Files (x86)\Rockstar Games";
   desktop w].

Definition deep_platforms : list string :=
  ["steam"; "epic"; "origin"; "ubisoft"; "riot"; "battle.net"; "gog"; "games"].

(** One round of the loop over [game_dirs]. *)
Definition scan_root (w : world) (games : list game) (directory : string)
  : list game :=
  match lookup w directory with
  | None => games
  | Some n =>
      if Str.any_in deep_platforms (Str.lower directory)
      then scan_directory_deep directory n games
      else scan_directory_shallow directory n games
  end.

Definition scan_roots (w : world) : list game :=
  fold_left (scan_root w) (game_dirs w) [].

(** The loop of [get_registry_games] over the Steam library: a child whose
    listing fails ends the loop, by the method's outer [except]. *)
Fixpoint registry_loop (steamapps_path : string) (items : list (string * node))
  (games : list game) : list game :=
  match items with
  | [] => games
  | (game_dir, n) :: rest =>
      let game_path := Path.join steamapps_path game_dir in
      match n with
      | File => registry_loop steamapps_path rest games
      | Dir None => games
      | Dir (Some entries) =>
          registry_loop steamapps_path rest
            match first_qualifying game_path (map fst entries) with
            | Some file => games ++ [Game game_dir (Path.join game_path file)]
            | None => games
            end
      end
  end.

Definition get_registry_games (w : world) : list game :=
  match steam_install_path w with
  | None => []
  | Some install_path =>
      let steamapps_path :=
        Path.join (Path.join install_path "steamapps") "common" in
      match lookup w steamapps_path with
      | Some (Dir (Some items)) => registry_loop steamapps_path items []
      | _ => []
      end
  end.

(** The raw candidates of one pass: the roots in order, then the registry. *)
Definition raw_candidates (w : world) : list game :=
  scan_roots w ++ get_registry_games w.

Definition progress_events (w : world) : list event :=
  imap (fun i directory =>
          Progress (Scanning_root (Path.basename directory) (i + 1)
                                  (length (game_dirs w))))
       (game_dirs w).

Definition emit_all (es : list event) : cmd unit := λ s, (tt, s, es).

(** The worker's pass. *)
Definition scan_for_games (w : world) : cmd unit :=
  emit_all (progress_events w);;
  emit (Progress Checking_registry);;
  modify (fun s => set_games (reconcile (raw_candidates w) (deleted_games s)) s);;
  modify (fun s => set_filtered_games (games s) s);;
  emit After_update_game_lists;;
  modify (set_scanning false);;
  emit (Progress No_progress).

Definition scan_games_thread : cmd unit :=
  s ← get;
  if scanning s then skip
  else
    modify (set_scanning true);;
    emit (Status Scanning_for_games);;
    emit (Progress Initializing);;
    emit Thread_start.

Definition refresh_games : cmd unit :=
  s ← get;
  if negb (scanning s) then scan_games_thread else skip.

(** A whole pass as the interactive surface sees it ended: the worker's
    pass, then the [update_game_lists] it scheduled. *)
Definition full_scan (w : world) : cmd unit :=
  scan_for_games w;; update_game_lists.

(** [directory] is what the directory prompt returns, empty when it is
    dismissed. *)
Definition add_custom_path (w : world) (directory : string) : cmd unit :=
  if String.eqb directory "" then skip
  else
    emit (Status (Scanning_custom directory));;
    let found :=
      match lookup w directory with
      | Some n => scan_directory_deep directory n []
      | None => []
      end in
    match found with
    | [] => emit (Status No_games_in_directory)
    | _ =>
        s ← get;
        let new_games := drop_deleted (deleted_games s) found in
        let existing_paths := path <$> games s in
        modify (set_games
                  (sorted (games s ++ filter (λ g, path g ∉ existing_paths) new_games)));;
        modify (fun s => set_filtered_games (games s) s);;
        update_game_lists;;
        emit (Status (Added_custom (length new_games)))
    end.

(** [present] is [os.path.exists(game_path)]. *)
Definition launch_game (game_path : string) (present : bool) : cmd unit :=
  if present then emit (Status (Launched (Path.basename game_path)))
  else emit (Status Game_not_found).

(** The operations of the launcher on its collections. *)
Inductive operation :=
| Refresh_games
| Scan_games_thread
| Scan_for_games (w : world)
| Add_custom_path (w : world) (directory : string)
| Restore_game (g : game)
| Toggle_favorite (g : game)
| Delete_game (g : game) (answer : bool)
| Filter_games
| Update_game_lists
| Populate_favorites_list
| Populate_deleted_list
| Launch_game (game_path : string) (present : bool).

Definition run (o : operation) : cmd unit :=
  match o with
  | Refresh_games => refresh_games
  | Scan_games_thread => scan_games_thread
  | Scan_for_games w => scan_for_games w
  | Add_custom_path w directory => add_custom_path w directory
  | Restore_game g => restore_game g
  | Toggle_favorite g => toggle_favorite g
  | Delete_game g answer => delete_game g answer
  | Filter_games => filter_games
  | Update_game_lists => update_game_lists
  | Populate_favorites_list => populate_favorites_list
  | Populate_deleted_list => populate_deleted_list
  | Launch_game game_path present => launch_game game_path present
  end.

(** The event is a rewrite of the favorites document. *)
Definition writes_favorites (e : event) : bool :=
  match e with Dump FavoritesFile _ => true | _ => false end.

(** ** Notions the claims on traversal speak of *)

(** A root that [ntpath.join] extends with one separator: what follows its
    drive is not empty and does not end with a separator. *)
Definition plain_root (directory : string) : bool :=
  match Str.last (snd (Path.splitdrive directory)) with
  | Some c => negb (Str.is_sep c)
  | None => false
  end.

(** A name as a directory listing gives it: not empty, no separator. *)
Definition entry_name (n : string) : bool :=
  negb (String.eqb n "") && negb (Str.has_sep n).

(** Every name in the tree is an entry name. *)
Fixpoint well_named (n : node) : bool :=
  match n with
  | File => true
  | Dir None => true
  | Dir (Some entries) =>
      (fix all (es : list (string * node)) : bool :=
         match es with
         | [] => true
         | (d, sub) :: es' => entry_name d && well_named sub && all es'
         end) entries
  end.

(** [reaches n names m]: going down from [n] through the directories
    [names], in this order, ends at [m]. *)
Inductive reaches : node → list string → node → Prop :=
| reaches_here n : reaches n [] n
| reaches_down entries d sub names m :
    (d, sub) ∈ entries → reaches sub names m →
    reaches (Dir (Some entries)) (d :: names) m.

(** The path [os.walk] gives the directory found [names] below
    [directory]. *)
Definition dir_at (directory : string) (names : list string) : string :=
  fold_left Path.join names directory.

(** The walk step on the entries of a directory, as a fold. *)
Definition descend_step (directory root : string) (acc : list game)
  (e : string * node) : list game :=
  if is_dir (snd e) then walk directory (Path.join root (fst e)) (snd e) acc
  else acc.





(** Induction on a tree, with the hypothesis for every entry of a
    directory. *)
Section NodeInduction.
Variable P : node → Prop.
Hypothesis HFile : P File.
Hypothesis HDenied : P (Dir None).
Hypothesis HDir : ∀ entries, Forall (λ e, P (snd e)) entries → P (Dir (Some entries)).

Fixpoint node_induction (n : node) : P n :=
  match n with
  | File => HFile
  | Dir None => HDenied
  | Dir (Some entries) =>
      HDir entries
        ((fix all (es : list (string * node)) : Forall (λ e, P (snd e)) es :=
            match es with
            | [] => List.Forall_nil _
            | (d, sub) :: es' =>
                @List.Forall_cons _ (λ e, P (snd e)) (d, sub) es' (node_induction sub) (all es')
            end) entries)
  end.
End NodeInduction.

(** A method that leaves the favorites document alone. *)
Definition quiet {A} (c : cmd A) : Prop :=
  ∀ s, Forall (λ e, writes_favorites e = false) (events_of c s).

(** The state after a sequence of operations. *)
Definition run_all (os : list operation) (s : launcher) : launcher :=
  fold_left (fun s o => state_after (run o) s) os s.

(** ** The path line of a game card *)


(** ** Conditions on the launcher's collections *)

(** No published game and no favorite has a deleted path, and the filtered
    view shows games of the published list only. *)
Definition consistent (s : launcher) : Prop :=
  (∀ g, g ∈ games s → path g ∉ path <$> deleted_games s)
  ∧ (∀ f, f ∈ favorites s → path f ∉ path <$> deleted_games s)
  ∧ filtered_games s `sublist_of` games s.

(** The published list is in order of lowercased name. *)
Definition ordered (s : launcher) : Prop := Sorted key_le (games s).

(** What the deep scan of a custom directory finds. *)
Definition custom_found (w : world) (directory : string) : list game :=
  match lookup w directory with
  | Some n => scan_directory_deep directory n []
  | None => []
  end.

(** The published list after the games found in a custom directory are
    merged into it. *)
Definition merged_games (found : list game) (s : launcher) : list game :=
  sorted (games s
          ++ filter (λ g, path g ∉ path <$> games s)
                    (drop_deleted (deleted_games s) found)).


(** A root that ends with a separator, as the root of a drive does. *)
Definition sep_terminated (directory : string) : bool :=
  match Str.last (snd (Path.splitdrive directory)) with
  | Some c => Str.is_sep c
  | None => false
  end.

(** ** The reconciliation as the specification words it *)

(** The normalized key of a candidate: its name in lowercase, with the
    spaces removed. *)
Definition spec_key (g : game) : string :=
  Str.remove_char " " (Str.lower (name g)).

(** Step 1: in input order, an entry is kept when no entry before it has
    its key, and discarded otherwise. *)
Fixpoint spec_keep_first_from (earlier l : list game) : list game :=
  match l with
  | [] => []
  | g :: l' =>
      if existsb (fun h => String.eqb (spec_key h) (spec_key g)) earlier
      then spec_keep_first_from (earlier ++ [g]) l'
      else g :: spec_keep_first_from (earlier ++ [g]) l'
  end.

Definition spec_keep_first (l : list game) : list game :=
  spec_keep_first_from [] l.

(** Step 2: an entry whose path is the path of a deleted record goes. *)
Definition spec_remove_deleted (deleted l : list game) : list game :=
  List.filter
    (fun g => negb (existsb (fun d => String.eqb (path d) (path g)) deleted)) l.

(** The order of step 3: by name, ascending, whatever the case. *)
Definition name_le (g h : game) : Prop :=
  String.leb (Str.lower (name g)) (Str.lower (name h)) = true.

(** ** Roots the path model is exact for *)

(** A path that starts with a drive: a character that is no separator,
    then a colon. *)
Definition drive_letter_path (p : string) : bool :=
  match p with
  | String a (String b _) => negb (Str.is_sep a) && Ascii.eqb b Str.colon
  | _ => false
  end.

(** ** Inputs used as examples *)

Definition launcher_c1 : launcher :=
  Launcher [] [Game "Doom" "D:\games\Doom\doom.exe"]
           [Game "Doom" "D:\games\Doom\doom.exe"] [] true "".

Definition world_c1 : world :=
  World (fun p => if String.eqb p "D:\games"
                  then Some (Dir (Some [("Doom", Dir (Some [("doom.exe", File)]))]))
                  else None)
        "C:\Users\me\Desktop" None.

Definition world_c3 : world :=
  World (fun p => if String.eqb p "D:\games"
                  then Some (Dir (Some [("Half-Life", Dir (Some [("hl.exe", File)]));
                                        ("Half Life", Dir (Some [("hl.exe", File)]))]))
                  else None)
        "C:\Users\me\Desktop" None.

(** [minecraft.exe] three directories below the root. *)
Definition tree_c4 : node :=
  Dir (Some [("a", Dir (Some [("b", Dir (Some [("c",
         Dir (Some [("minecraft.exe", File)]))]))]))]).


Definition doom : game := Game "Doom" "D:\games\Doom\doom.exe".

(** The same title installed a second time, elsewhere. *)
Definition doom_copy : game := Game "Doom" "E:\backup\Doom\doom.exe".

(** A scan is running. *)
Definition launcher_c7 : launcher := Launcher [doom] [] [] [doom] true "".

(** One game, no favorite, nothing deleted. *)
Definition launcher_c8 : launcher := Launcher [doom] [] [] [doom] false "".


(** [doom.exe] four directories below the root. *)
Definition tree_x17 : node :=
  Dir (Some [("a", Dir (Some [("b", Dir (Some [("c", Dir (Some [("d",
         Dir (Some [("doom.exe", File)]))]))]))]))]).

(** Candidates of the roots, out of order, one of them deleted, and
    candidates of the registry, one of them with the key of a root
    candidate. *)
Definition roots_c2 : list game :=
  [Game "Zelda" "D:\games\Zelda\zelda.exe";
   Game "Doom" "D:\games\Doom\doom.exe";
   Game "Apex" "D:\games\Apex\apex.exe"].

Definition registry_c2 : list game :=
  [Game "DO OM" "C:\Steam\steamapps\common\DO OM\doom.exe";
   Game "Hades" "C:\Steam\steamapps\common\Hades\hades.exe"].

Definition deleted_c2 : list game :=
  [Game "Apex Legends" "D:\games\Apex\apex.exe"].


(** Two games, one of them a favorite. *)
Definition launcher_x2 : launcher :=
  Launcher [doom; Game "Hades" "D:\games\Hades\hades.exe"] [doom] []
           [doom; Game "Hades" "D:\games\Hades\hades.exe"] false "".

(** * Properties *)

(** ** The sort *)

Section Sorting.

Lemma insert_by_name_perm g l : insert_by_name g l ≡ₚ g :: l.
Proof.
  induction l as [|h l IH]; simpl; [done|].
  destruct (key_le g h); [done|].
  rewrite IH. apply Permutation_swap.
Qed.

Lemma sorted_perm l : sorted l ≡ₚ l.
Proof.
  induction l as [|g l IH]; simpl; [done|].
  by rewrite insert_by_name_perm, IH.
Qed.

Lemma elem_of_sorted g l : g ∈ sorted l ↔ g ∈ l.
Proof. by rewrite sorted_perm. Qed.

Lemma key_le_total g h : key_le g h = false → key_le h g.
Proof.
  unfold key_le. intros H. apply Is_true_true.
  destruct (String.leb_total (sort_key g) (sort_key h)); congruence.
Qed.

Lemma insert_by_name_hd g l x :
  HdRel key_le x l → key_le x g → HdRel key_le x (insert_by_name g l).
Proof.
  destruct l as [|h l]; simpl; intros Hl Hg.
  - by constructor.
  - destruct (key_le g h); constructor; [done|].
    by inversion Hl.
Qed.

Lemma insert_by_name_Sorted g l :
  Sorted key_le l → Sorted key_le (insert_by_name g l).
Proof.
  induction 1 as [|h l Hs IH Hh]; simpl.
  - by repeat constructor.
  - destruct (key_le g h) eqn:E.
    + constructor; [by constructor|]. constructor. by apply Is_true_true.
    + constructor; [done|].
      apply insert_by_name_hd; [done|]. by apply key_le_total.
Qed.

Lemma sorted_Sorted l : Sorted key_le (sorted l).
Proof.
  induction l; simpl; [constructor|]. by apply insert_by_name_Sorted.
Qed.

End Sorting.

(** ** The loop with [seen] keeps first occurrences *)

Section Dedup.

Lemma dedup_loop l : ∀ before acc,
  fold_left dedup_step l (list_to_set (dedup_key <$> before), acc)
  = (list_to_set (dedup_key <$> (before ++ l)),
     acc ++ first_occurrences_from before l).
Proof.
  induction l as [|g l IH]; intros before acc; simpl.
  - by rewrite !app_nil_r.
  - unfold dedup_step at 2. simpl.
    assert (Hset : ({[dedup_key g]} ∪ list_to_set (dedup_key <$> before) : gset string)
                   = list_to_set (dedup_key <$> (before ++ [g]))).
    { rewrite fmap_app, list_to_set_app_L. simpl. set_solver. }
    destruct (decide (dedup_key g ∈ (list_to_set (dedup_key <$> before) : gset string)))
      as [Hin|Hin]; rewrite elem_of_list_to_set in Hin.
    + rewrite decide_True by done.
      assert (Hsame : (list_to_set (dedup_key <$> before) : gset string)
                      = list_to_set (dedup_key <$> (before ++ [g]))).
      { rewrite <- Hset. set_solver. }
      rewrite Hsame, IH. by rewrite <- app_assoc.
    + rewrite decide_False by done.
      rewrite Hset, IH. by rewrite <- !app_assoc.
Qed.

Lemma unique_games_first_occurrences l : unique_games l = first_occurrences l.
Proof.
  unfold unique_games, first_occurrences.
  change (∅ : gset string) with (list_to_set (dedup_key <$> []) : gset string).
  by rewrite dedup_loop.
Qed.

Lemma first_occurrences_from_spec l : ∀ before e,
  e ∈ first_occurrences_from before l →
  e ∈ l ∧ dedup_key e ∉ dedup_key <$> before.
Proof.
  induction l as [|g l IH]; intros before e; simpl.
  - by intros ?%elem_of_nil.
  - destruct (decide (dedup_key g ∈ dedup_key <$> before)) as [Hin|Hin].
    + intros [? Hk]%IH. split; [by right|].
      rewrite fmap_app in Hk. set_solver.
    + intros [->|[? Hk]%IH]%elem_of_cons.
      * split; [by left|done].
      * split; [by right|]. rewrite fmap_app in Hk. set_solver.
Qed.

Lemma first_occurrences_from_NoDup l : ∀ before,
  NoDup (dedup_key <$> first_occurrences_from before l).
Proof.
  induction l as [|g l IH]; intros before; simpl; [constructor|].
  destruct (decide (dedup_key g ∈ dedup_key <$> before)); [apply IH|].
  rewrite fmap_cons. constructor; [|apply IH].
  intros (e & Hk & He)%list_elem_of_fmap.
  apply first_occurrences_from_spec in He as [_ Hn].
  apply Hn. rewrite fmap_app. set_solver.
Qed.

(** Among the survivors, those with key [k] are the first entry of the
    input with key [k], unless an earlier entry had it. *)
Lemma first_occurrences_from_key k l : ∀ before,
  filter (λ e, dedup_key e = k) (first_occurrences_from before l)
  = if decide (k ∈ dedup_key <$> before) then []
    else take 1 (filter (λ e, dedup_key e = k) l).
Proof.
  induction l as [|g l IH]; intros before; simpl.
  - by destruct (decide _).
  - assert (Hb : ∀ x, x ∈ dedup_key <$> (before ++ [g])
                      ↔ x ∈ dedup_key <$> before ∨ x = dedup_key g).
    { intros x. rewrite fmap_app. set_solver. }
    destruct (decide (dedup_key g ∈ dedup_key <$> before)) as [Hin|Hin].
    + rewrite IH.
      destruct (decide (k ∈ dedup_key <$> before)) as [Hk|Hk].
      * rewrite decide_True; [done|]. apply Hb. by left.
      * rewrite decide_False.
        -- rewrite filter_cons_False; [done|]. intros <-. done.
        -- rewrite Hb. intros [?| ->]; done.
    + destruct (decide (dedup_key g = k)) as [Hg|Hg].
      * rewrite !filter_cons_True by done. rewrite IH.
        rewrite decide_True by (apply Hb; by right).
        rewrite decide_False by (by rewrite <- Hg).
        done.
      * rewrite !filter_cons_False by done. rewrite IH.
        destruct (decide (k ∈ dedup_key <$> before)) as [Hk|Hk].
        -- rewrite decide_True; [done|]. apply Hb. by left.
        -- rewrite decide_False; [done|]. rewrite Hb. intros [?|?]; done.
Qed.

Lemma unique_games_key k l :
  filter (λ e, dedup_key e = k) (unique_games l)
  = take 1 (filter (λ e, dedup_key e = k) l).
Proof.
  rewrite unique_games_first_occurrences. unfold first_occurrences.
  rewrite first_occurrences_from_key. rewrite decide_False; [done|].
  simpl. apply not_elem_of_nil.
Qed.

Lemma unique_games_NoDup l : NoDup (dedup_key <$> unique_games l).
Proof.
  rewrite unique_games_first_occurrences. apply first_occurrences_from_NoDup.
Qed.

Lemma drop_deleted_sublist deleted l : drop_deleted deleted l `sublist_of` l.
Proof. apply sublist_filter. Qed.

Lemma reconcile_NoDup raw deleted : NoDup (dedup_key <$> reconcile raw deleted).
Proof.
  unfold reconcile. rewrite sorted_perm.
  eapply sublist_NoDup; [apply unique_games_NoDup|].
  apply fmap_sublist, drop_deleted_sublist.
Qed.

Lemma elem_of_drop_deleted deleted l e :
  e ∈ drop_deleted deleted l ↔ e ∈ l ∧ path e ∉ path <$> deleted.
Proof. unfold drop_deleted. rewrite list_elem_of_filter. tauto. Qed.

Lemma elem_of_reconcile raw deleted e :
  e ∈ reconcile raw deleted ↔
  e ∈ unique_games raw ∧ path e ∉ path <$> deleted.
Proof. unfold reconcile. by rewrite elem_of_sorted, elem_of_drop_deleted. Qed.

End Dedup.

(** ** Reconciliation: claims on [scan_for_games] and the favorites view *)

Section Reconciliation.

Lemma scan_for_games_games w s :
  games (state_after (scan_for_games w) s)
  = reconcile (raw_candidates w) (deleted_games s).
Proof. reflexivity. Qed.

Lemma update_game_lists_state s :
  state_after update_game_lists s
  = set_favorites (drop_deleted (deleted_games s) (favorites s)) s.
Proof. reflexivity. Qed.

Lemma populate_favorites_list_events s :
  events_of populate_favorites_list s
  = [Cards FavoritesTab
       (map (fun g => (g, is_favorite (drop_deleted (deleted_games s) (favorites s)) g))
            (drop_deleted (deleted_games s) (favorites s)))].
Proof. reflexivity. Qed.

Lemma full_scan_state w s :
  state_after (full_scan w) s
  = Launcher (reconcile (raw_candidates w) (deleted_games s))
             (drop_deleted (deleted_games s) (favorites s))
             (deleted_games s)
             (reconcile (raw_candidates w) (deleted_games s))
             false (search s).
Proof. reflexivity. Qed.

End Reconciliation.

(** C1. Deletion suppression: an entry whose path is the path of a record
    of the deleted set is in no list that the dedup / filter step of a scan
    publishes, whatever the raw candidates are, and is neither in the
    favorites nor among the cards of the favorites tab after the favorites
    view is refreshed, whatever the favorites were; after a whole pass
    (worker, then the list update it schedules) both hold, against the same
    deleted set. *)
Theorem deletion_suppression (w : world) (s : launcher) (e : game) :
  path e ∈ path <$> deleted_games s →
  (∀ raw, e ∉ reconcile raw (deleted_games s))
  ∧ (e ∉ games (state_after (scan_for_games w) s))
  ∧ (e ∉ favorites (state_after populate_favorites_list s))
  ∧ (∀ cards, Cards FavoritesTab cards ∈ events_of populate_favorites_list s →
              e ∉ map fst cards)
  ∧ (e ∉ games (state_after (full_scan w) s))
  ∧ (e ∉ favorites (state_after (full_scan w) s))
  ∧ deleted_games (state_after (full_scan w) s) = deleted_games s.
Proof.
  intros Hdel.
  assert (Hraw : ∀ raw, e ∉ reconcile raw (deleted_games s)).
  { intros raw [_ Hn]%elem_of_reconcile. done. }
  assert (Hfav : e ∉ drop_deleted (deleted_games s) (favorites s)).
  { intros [_ Hn]%elem_of_drop_deleted. done. }
  split_and!; try done.
  - rewrite scan_for_games_games. apply Hraw.
  - intros cards. rewrite populate_favorites_list_events.
    intros Hc%list_elem_of_singleton. injection Hc as ->.
    rewrite map_map, map_id. done.
  - rewrite full_scan_state. simpl. apply Hraw.
Qed.

Lemma deletion_suppression_witness :
  let e := Game "Doom" "D:\games\Doom\doom.exe" in
  e ∈ favorites launcher_c1
  ∧ (e ∉ games (state_after (full_scan world_c1) launcher_c1))
  ∧ (e ∉ favorites (state_after (full_scan world_c1) launcher_c1)).
Proof.
  intros e. split; [by left|].
  assert (H : path e ∈ path <$> deleted_games launcher_c1) by (by left).
  pose proof (deletion_suppression world_c1 launcher_c1 e H) as K.
  split; apply K.
Defined.

(** The words of the specification and the code's own steps agree. *)
Section SpecSteps.

Lemma spec_key_dedup_key g : spec_key g = dedup_key g.
Proof. reflexivity. Qed.

Lemma key_seen_earlier k (earlier : list game) :
  existsb (fun h => String.eqb (spec_key h) k) earlier = true
  ↔ k ∈ dedup_key <$> earlier.
Proof.
  rewrite existsb_exists, list_elem_of_fmap. split.
  - intros (h & Hh%list_elem_of_In & He%String.eqb_eq). by exists h.
  - intros (h & -> & Hh%list_elem_of_In). exists h. split; [done|].
    apply String.eqb_refl.
Qed.

Lemma spec_keep_first_from_eq l : ∀ earlier,
  spec_keep_first_from earlier l = first_occurrences_from earlier l.
Proof.
  induction l as [|g l IH]; intros earlier; simpl; [done|].
  rewrite !IH.
  destruct (existsb _ earlier) eqn:E.
  - apply key_seen_earlier in E. by rewrite decide_True.
  - rewrite decide_False; [done|]. intros Hin%key_seen_earlier.
    unfold spec_key, dedup_key in *. congruence.
Qed.

Lemma spec_keep_first_eq l : spec_keep_first l = first_occurrences l.
Proof. apply spec_keep_first_from_eq. Qed.

Lemma List_filter_eq {A} (P : A → Prop) `{∀ x, Decision (P x)} (f : A → bool) l :
  (∀ x, f x = true ↔ P x) → List.filter f l = filter P l.
Proof.
  intros Hf. induction l as [|x l IH]; simpl; [done|].
  destruct (f x) eqn:E.
  - rewrite filter_cons_True by (by apply Hf). by rewrite IH.
  - rewrite filter_cons_False; [done|]. intros HP%Hf. congruence.
Qed.

Lemma not_deleted_spec (deleted : list game) g :
  negb (existsb (fun d => String.eqb (path d) (path g)) deleted) = true
  ↔ path g ∉ path <$> deleted.
Proof.
  rewrite negb_true_iff, <- not_true_iff_false, existsb_exists, list_elem_of_fmap.
  split.
  - intros Hn (d & Hp & Hd). apply Hn. exists d.
    split; [by apply list_elem_of_In|]. apply String.eqb_eq. done.
  - intros Hn (d & Hd%list_elem_of_In & Hp%String.eqb_eq). apply Hn. by exists d.
Qed.

Lemma spec_remove_deleted_eq deleted l :
  spec_remove_deleted deleted l = drop_deleted deleted l.
Proof. apply List_filter_eq. intros g. apply not_deleted_spec. Qed.

Lemma key_filter_eq k (l : list game) :
  List.filter (fun g => String.eqb (spec_key g) k) l
  = filter (λ g, dedup_key g = k) l.
Proof. apply List_filter_eq. intros g. apply String.eqb_eq. Qed.

Lemma Sorted_name_le l : Sorted key_le l → Sorted name_le l.
Proof.
  induction 1 as [|g l Hs IH Hh]; constructor; [done|].
  destruct Hh as [|h l' Hgh]; constructor. by apply Is_true_true in Hgh.
Qed.

Lemma first_occurrences_head raw e :
  e ∈ first_occurrences raw ↔
  head (filter (λ g, dedup_key g = dedup_key e) raw) = Some e.
Proof.
  rewrite <- unique_games_first_occurrences. split.
  - intros He.
    assert (Hin : e ∈ filter (λ g, dedup_key g = dedup_key e) (unique_games raw))
      by (by apply list_elem_of_filter).
    rewrite unique_games_key in Hin.
    destruct (filter (λ g, dedup_key g = dedup_key e) raw) as [|x xs];
      simpl in Hin; [by apply elem_of_nil in Hin|].
    rewrite take_0 in Hin. apply list_elem_of_singleton in Hin. by subst.
  - intros Hh.
    assert (Hin : e ∈ take 1 (filter (λ g, dedup_key g = dedup_key e) raw)).
    { destruct (filter (λ g, dedup_key g = dedup_key e) raw) as [|x xs];
        simpl in *; [done|]. injection Hh as ->. by left. }
    rewrite <- unique_games_key in Hin.
    by apply list_elem_of_filter in Hin as [_ ?].
Qed.

Lemma root_candidate_wins roots registry deleted e g :
  e ∈ reconcile (roots ++ registry) deleted → g ∈ roots →
  dedup_key g = dedup_key e →
  head (filter (λ h, dedup_key h = dedup_key e) roots) = Some e.
Proof.
  intros [He _]%elem_of_reconcile Hg Hk.
  rewrite unique_games_first_occurrences in He.
  apply first_occurrences_head in He. rewrite filter_app in He.
  destruct (filter (λ h, dedup_key h = dedup_key e) roots) as [|x xs] eqn:E.
  - assert (Hgin : g ∈ filter (λ h, dedup_key h = dedup_key e) roots)
      by (by apply list_elem_of_filter).
    rewrite E in Hgin. by apply elem_of_nil in Hgin.
  - exact He.
Qed.

End SpecSteps.

(** C2. Reconciliation postcondition: the list a scan publishes is the
    sort, by lowercased name, of what is left of the first occurrences of
    each key (name lowercased, spaces removed) once the entries whose path
    is a deleted path are removed.  In the specification's own words: an
    entry is published exactly when it is the first entry of the input with
    its key and no deleted record has its path; no two published entries
    have the same key; the published list is in ascending order of
    lowercased name.  An entry of the published list whose key some root
    candidate has is a root candidate, the first one with that key: a
    registry candidate never stands for a key that a root candidate has,
    whatever the paths. *)
Theorem reconcile_postcondition (roots registry deleted : list game) :
  let raw := roots ++ registry in
  reconcile raw deleted = sorted (drop_deleted deleted (first_occurrences raw))
  ∧ Sorted key_le (reconcile raw deleted)
  ∧ reconcile raw deleted ≡ₚ drop_deleted deleted (first_occurrences raw)
  ∧ (∀ e, e ∈ first_occurrences raw ↔
          head (filter (λ g, dedup_key g = dedup_key e) raw) = Some e)
  ∧ (∀ e g, e ∈ reconcile raw deleted → g ∈ roots → dedup_key g = dedup_key e →
            head (filter (λ h, dedup_key h = dedup_key e) roots) = Some e)
  ∧ (∀ w s, games (state_after (scan_for_games w) s)
            = reconcile (scan_roots w ++ get_registry_games w) (deleted_games s))
  ∧ reconcile raw deleted
    = sorted (spec_remove_deleted deleted (spec_keep_first raw))
  ∧ reconcile raw deleted ≡ₚ spec_remove_deleted deleted (spec_keep_first raw)
  ∧ (∀ e, e ∈ reconcile raw deleted ↔
          head (List.filter (fun g => String.eqb (spec_key g) (spec_key e)) raw)
          = Some e
          ∧ ∀ d, d ∈ deleted → path d ≠ path e)
  ∧ NoDup (spec_key <$> reconcile raw deleted)
  ∧ Sorted name_le (reconcile raw deleted)
  ∧ (∀ e g, e ∈ reconcile raw deleted → g ∈ roots → spec_key g = spec_key e →
            e ∈ roots
            ∧ head (List.filter (fun h => String.eqb (spec_key h) (spec_key e)) roots)
              = Some e).
Proof.
  intros raw.
  assert (Hcode : reconcile raw deleted
                  = sorted (drop_deleted deleted (first_occurrences raw))).
  { unfold reconcile. by rewrite unique_games_first_occurrences. }
  split_and!.
  - exact Hcode.
  - apply sorted_Sorted.
  - by rewrite Hcode, sorted_perm.
  - apply first_occurrences_head.
  - apply root_candidate_wins.
  - intros w s. rewrite scan_for_games_games. unfold raw_candidates. reflexivity.
  - by rewrite spec_remove_deleted_eq, spec_keep_first_eq.
  - by rewrite spec_remove_deleted_eq, spec_keep_first_eq, Hcode, sorted_perm.
  - intros e. rewrite key_filter_eq, spec_key_dedup_key.
    rewrite <- first_occurrences_head, Hcode, elem_of_sorted, elem_of_drop_deleted.
    apply and_iff_compat_l. rewrite list_elem_of_fmap. split.
    + intros Hn d Hd Hp. apply Hn. by exists d.
    + intros Hn (d & Hp & Hd). by apply (Hn d).
  - apply reconcile_NoDup.
  - apply Sorted_name_le, sorted_Sorted.
  - intros e g He Hg Hk. rewrite key_filter_eq, spec_key_dedup_key.
    pose proof (root_candidate_wins roots registry deleted e g He Hg Hk) as Hh.
    split; [|exact Hh].
    destruct (filter (λ h, dedup_key h = dedup_key e) roots) as [|x xs] eqn:E;
      [done|]. injection Hh as ->.
    assert (Hin : e ∈ filter (λ h, dedup_key h = dedup_key e) roots)
      by (rewrite E; by left).
    by apply list_elem_of_filter in Hin as [_ ?].
Qed.

Lemma reconcile_postcondition_witness :
  reconcile (roots_c2 ++ registry_c2) deleted_c2
  = [Game "Doom" "D:\games\Doom\doom.exe";
     Game "Hades" "C:\Steam\steamapps\common\Hades\hades.exe";
     Game "Zelda" "D:\games\Zelda\zelda.exe"].
Proof.
  destruct (reconcile_postcondition roots_c2 registry_c2 deleted_c2)
    as (_ & _ & _ & _ & _ & _ & H & _).
  rewrite H. vm_compute. reflexivity.
Defined.

(** C3, as the invariant is worded: the names of a published list, made
    lowercase and stripped of spaces, hyphens and underscores, would be
    pairwise different.  A scan of [D:\games] holding [Half-Life] and
    [Half Life] publishes both. *)
Lemma normalized_keys_clash :
  ¬ (∀ (w : world) (s : launcher),
       NoDup (normalized_name <$> games (state_after (scan_for_games w) s))).
Proof.
  intros H. specialize (H world_c3 fresh).
  vm_compute in H.
  apply NoDup_cons in H as [Hn _]. apply Hn. by left.
Qed.

(** C3, amended. After every scan no two entries of the published list
    have the same name once names are made lowercase and spaces (only
    spaces) are removed. *)
Theorem dedup_key_unique (w : world) (s : launcher) :
  NoDup (dedup_key <$> games (state_after (scan_for_games w) s))
  ∧ (∀ raw deleted, NoDup (dedup_key <$> reconcile raw deleted))
  ∧ (∀ i j g h, games (state_after (scan_for_games w) s) !! i = Some g →
                games (state_after (scan_for_games w) s) !! j = Some h →
                i ≠ j → dedup_key g ≠ dedup_key h).
Proof.
  split_and!.
  - rewrite scan_for_games_games. apply reconcile_NoDup.
  - apply reconcile_NoDup.
  - intros i j g h Hi Hj Hij Hk. apply Hij.
    eapply NoDup_lookup; [apply reconcile_NoDup| |].
    + rewrite list_lookup_fmap. rewrite <- scan_for_games_games, Hi. reflexivity.
    + rewrite list_lookup_fmap. rewrite <- scan_for_games_games, Hj. simpl.
      by rewrite Hk.
Qed.

(** ** Paths and separator counts *)

Section Paths.

Lemma count_append c a b :
  Str.count c (a +:+ b) = Str.count c a + Str.count c b.
Proof. induction a as [|d a IH]; simpl; [done|]. rewrite IH. lia. Qed.

Lemma has_sep_count s : Str.has_sep s = false → Str.count Str.sep s = 0.
Proof.
  induction s as [|c s IH]; simpl; [done|].
  unfold Str.is_sep. intros [[H1 _]%orb_false_elim H2]%orb_false_elim.
  rewrite H1. by rewrite IH.
Qed.

Lemma last_append_String a c b :
  Str.last (a +:+ String c b) = Str.last (String c b).
Proof.
  induction a as [|d a IH]; [done|].
  change (String d a +:+ String c b) with (String d (a +:+ String c b)).
  destruct a; simpl in *; by rewrite ?IH.
Qed.

Lemma last_entry_name d :
  entry_name d = true → ∃ c, Str.last d = Some c ∧ Str.is_sep c = false.
Proof.
  unfold entry_name. intros [Hne Hs]%andb_true_iff.
  apply negb_true_iff in Hs.
  induction d as [|c d IH]; [done|].
  simpl in Hs. apply orb_false_elim in Hs as [Hc Hd].
  destruct d as [|c' d'].
  - by exists c.
  - destruct (IH eq_refl Hd) as (x & Hx & Hxs). exists x. by split.
Qed.

Lemma splitdrive_append_sep p d c :
  Str.last (snd (Path.splitdrive p)) = Some c →
  snd (Path.splitdrive (p +:+ String Str.sep d))
  = snd (Path.splitdrive p) +:+ String Str.sep d.
Proof.
  destruct p as [|a [|b rest]]; simpl; [done|done|].
  by destruct (Ascii.eqb b Str.colon).
Qed.

Lemma join_plain p d :
  plain_root p = true → entry_name d = true →
  Path.join p d = p +:+ String Str.sep d ∧ plain_root (Path.join p d) = true.
Proof.
  unfold plain_root, Path.join. intros Hp Hd.
  destruct (Str.last (snd (Path.splitdrive p))) as [c|] eqn:E; [|done].
  apply negb_true_iff in Hp. rewrite Hp. split; [done|].
  rewrite (splitdrive_append_sep _ _ c E), last_append_String.
  destruct (last_entry_name d Hd) as (x & Hx & Hxs).
  assert (Hl : Str.last (String Str.sep d) = Some x).
  { destruct d; [done|]. exact Hx. }
  by rewrite Hl, Hxs.
Qed.

Lemma count_join_plain p d :
  plain_root p = true → entry_name d = true →
  Str.count Str.sep (Path.join p d) = S (Str.count Str.sep p).
Proof.
  intros Hp Hd. destruct (join_plain p d Hp Hd) as [-> _].
  rewrite count_append. simpl.
  apply andb_true_iff in Hd as [_ Hs%negb_true_iff].
  rewrite (has_sep_count _ Hs). lia.
Qed.

Lemma count_join_le p d :
  entry_name d = true →
  Str.count Str.sep (Path.join p d) ≤ S (Str.count Str.sep p).
Proof.
  intros [_ Hs%negb_true_iff]%andb_true_iff. unfold Path.join.
  destruct (Str.last _) as [c|]; [destruct (Str.is_sep c)|];
    rewrite count_append; simpl; rewrite (has_sep_count _ Hs); lia.
Qed.

Lemma dir_at_plain names : ∀ directory,
  plain_root directory = true → Forall (λ d, entry_name d = true) names →
  plain_root (dir_at directory names) = true
  ∧ Str.count Str.sep (dir_at directory names)
    = Str.count Str.sep directory + length names.
Proof.
  induction names as [|d names IH]; intros directory Hp Hn; simpl.
  - split; [done|lia].
  - apply Forall_cons in Hn as [Hd Hn].
    destruct (join_plain directory d Hp Hd) as [_ Hp'].
    change (dir_at directory (d :: names))
      with (dir_at (Path.join directory d) names).
    destruct (IH _ Hp' Hn) as [H1 H2]. split; [exact H1|].
    rewrite H2, count_join_plain by done. lia.
Qed.

Lemma dir_at_count_le names : ∀ directory,
  Forall (λ d, entry_name d = true) names →
  Str.count Str.sep (dir_at directory names)
  ≤ Str.count Str.sep directory + length names.
Proof.
  induction names as [|d names IH]; intros directory Hn; simpl; [lia|].
  apply Forall_cons in Hn as [Hd Hn].
  change (dir_at directory (d :: names))
    with (dir_at (Path.join directory d) names).
  etrans; [apply IH, Hn|]. pose proof (count_join_le directory d Hd). lia.
Qed.

Lemma too_deep_false directory root :
  Str.count Str.sep root ≤ Str.count Str.sep directory + 2 →
  too_deep directory root = false.
Proof. unfold too_deep. intros H. apply Z.ltb_ge. lia. Qed.

Lemma too_deep_true directory root :
  too_deep directory root = true →
  Str.count Str.sep directory + 3 ≤ Str.count Str.sep root.
Proof. unfold too_deep. intros H%Z.ltb_lt. lia. Qed.

End Paths.

(** ** The deep walk *)

Section Walk.

Lemma walk_Dir directory root entries games :
  walk directory root (Dir (Some entries)) games
  = let games1 := scan_files root (walk_files entries) games in
    if too_deep directory root then games1
    else fold_left (descend_step directory root) entries games1.
Proof.
  simpl. destruct (too_deep directory root); [done|].
  generalize (scan_files root (walk_files entries) games).
  induction entries as [|[d sub] es IH]; intros acc; simpl; [done|].
  by rewrite IH.
Qed.

Lemma fold_left_acc {A B} (f : list B → A → list B) l :
  Forall (λ x, ∀ acc, f acc x = acc ++ f [] x) l →
  ∀ acc, fold_left f l acc = acc ++ fold_left f l [].
Proof.
  induction 1 as [|x l Hx _ IH]; intros acc; simpl.
  - by rewrite app_nil_r.
  - rewrite IH, (IH (f [] x)), Hx. by rewrite app_assoc.
Qed.

Lemma elem_of_fold_left_acc {A B} (f : list B → A → list B) l x b :
  Forall (λ x, ∀ acc, f acc x = acc ++ f [] x) l →
  x ∈ l → b ∈ f [] x → ∀ acc, b ∈ fold_left f l acc.
Proof.
  induction 1 as [|y l Hy Hl IH]; intros Hx Hb acc.
  - by apply elem_of_nil in Hx.
  - simpl. apply elem_of_cons in Hx as [->|Hx].
    + rewrite fold_left_acc by done. apply elem_of_app. left.
      rewrite Hy. apply elem_of_app. by right.
    + by apply IH.
Qed.

Lemma elem_of_fold_left_acc_inv {A B} (f : list B → A → list B) l b :
  Forall (λ x, ∀ acc, f acc x = acc ++ f [] x) l →
  b ∈ fold_left f l [] → ∃ x, x ∈ l ∧ b ∈ f [] x.
Proof.
  induction 1 as [|y l Hy Hl IH]; simpl.
  - by intros ?%elem_of_nil.
  - rewrite fold_left_acc by done.
    intros [Hb|Hb]%elem_of_app.
    + exists y. split; [by left|done].
    + destruct (IH Hb) as (x & ? & ?). exists x. split; [by right|done].
Qed.

Lemma scan_files_acc root files games :
  scan_files root files games = games ++ scan_files root files [].
Proof.
  unfold scan_files. apply fold_left_acc.
  apply Forall_forall. intros file _ acc.
  destruct (qualifies file root); [done|by rewrite app_nil_r].
Qed.

Lemma elem_of_scan_files root files file :
  file ∈ files → qualifies file root = true →
  candidate root file ∈ scan_files root files [].
Proof.
  intros Hin Hq. unfold scan_files.
  apply (elem_of_fold_left_acc _ _ file); [|done|].
  - apply Forall_forall. intros f _ acc.
    destruct (qualifies f root); [done|by rewrite app_nil_r].
  - rewrite Hq. by left.
Qed.

Lemma scan_files_spec_acc root files g : ∀ acc,
  g ∈ scan_files root files acc →
  g ∈ acc ∨ ∃ file, file ∈ files ∧ qualifies file root = true
                    ∧ g = candidate root file.
Proof.
  unfold scan_files.
  induction files as [|f files IH]; intros acc Hg; simpl in Hg; [by left|].
  apply IH in Hg as [Hg|(file & ? & ? & ?)].
  - destruct (qualifies f root) eqn:E; [|by left].
    apply elem_of_app in Hg as [?|Hg]; [by left|].
    apply list_elem_of_singleton in Hg as ->.
    right. exists f. split_and!; [by left|done|done].
  - right. exists file. split_and!; [by right|done|done].
Qed.

Lemma scan_files_spec root files g :
  g ∈ scan_files root files [] →
  ∃ file, file ∈ files ∧ qualifies file root = true ∧ g = candidate root file.
Proof. by intros [?%elem_of_nil|?]%scan_files_spec_acc. Qed.

Lemma walk_acc n : ∀ directory root games,
  walk directory root n games = games ++ walk directory root n [].
Proof.
  induction n as [| |entries IH] using node_induction;
    intros directory root games.
  - simpl. by rewrite app_nil_r.
  - simpl. by rewrite app_nil_r.
  - rewrite !walk_Dir. cbv zeta.
    destruct (too_deep directory root); [apply scan_files_acc|].
    assert (Hstep : Forall (λ e, ∀ acc, descend_step directory root acc e
                                        = acc ++ descend_step directory root [] e)
                           entries).
    { eapply Forall_impl; [exact IH|]. intros [d sub] Hsub acc.
      unfold descend_step. simpl in *.
      destruct (is_dir sub); [apply Hsub|by rewrite app_nil_r]. }
    rewrite (fold_left_acc _ _ Hstep (scan_files _ _ games)).
    rewrite (fold_left_acc _ _ Hstep (scan_files _ _ [])).
    rewrite scan_files_acc. by rewrite app_assoc.
Qed.

Lemma descend_steps_acc directory root entries :
  Forall (λ e, ∀ acc, descend_step directory root acc e
                      = acc ++ descend_step directory root [] e) entries.
Proof.
  apply Forall_forall. intros [d sub] _ acc. unfold descend_step. simpl.
  destruct (is_dir sub); [apply walk_acc|by rewrite app_nil_r].
Qed.

Lemma well_named_entries entries :
  well_named (Dir (Some entries)) = true ↔
  Forall (λ e, entry_name (fst e) = true ∧ well_named (snd e) = true) entries.
Proof.
  simpl. induction entries as [|[d sub] es IH].
  - split; [constructor|done].
  - rewrite Forall_cons, <- IH, !andb_true_iff. simpl. tauto.
Qed.

Lemma reaches_well_named n names m :
  reaches n names m → well_named n = true →
  Forall (λ d, entry_name d = true) names ∧ well_named m = true.
Proof.
  induction 1 as [n|entries d sub names m Hin _ IH]; intros Hw.
  - split; [constructor|done].
  - apply well_named_entries in Hw. rewrite Forall_forall in Hw.
    destruct (Hw _ Hin) as [Hd Hsub]. simpl in *.
    destruct (IH Hsub) as [Hn Hm]. split; [by constructor|done].
Qed.

Lemma reaches_is_dir sub names entries :
  reaches sub names (Dir (Some entries)) → is_dir sub = true.
Proof. by inversion 1. Qed.

(** A file of a directory that the walk reaches without passing a
    directory that is too deep is examined. *)
Lemma walk_finds directory n names m : reaches n names m →
  ∀ root entries file,
    m = Dir (Some entries) → (file, File) ∈ entries →
    qualifies file (dir_at root names) = true →
    (∀ k, k < length names → too_deep directory (dir_at root (take k names)) = false) →
    candidate (dir_at root names) file ∈ walk directory root n [].
Proof.
  induction 1 as [n|es d sub names m Hin Hr IH];
    intros root entries file -> Hfile Hq Hdeep.
  - rewrite walk_Dir. cbv zeta. simpl in Hq.
    assert (Hc : candidate root file ∈ scan_files root (walk_files entries) []).
    { apply elem_of_scan_files; [|done]. unfold walk_files.
      apply list_elem_of_In, in_map_iff. exists (file, File). split; [done|].
      apply filter_In. split; [by apply list_elem_of_In|done]. }
    destruct (too_deep directory root); [done|].
    rewrite fold_left_acc by apply descend_steps_acc.
    apply elem_of_app. by left.
  - rewrite walk_Dir. cbv zeta.
    assert (H0 : too_deep directory root = false)
      by (apply (Hdeep 0); simpl; lia).
    rewrite H0.
    apply (elem_of_fold_left_acc _ _ (d, sub)); [apply descend_steps_acc|done|].
    unfold descend_step. simpl.
    rewrite (reaches_is_dir _ _ _ Hr).
    apply (IH _ entries); [done|done|exact Hq|].
    intros k Hk. apply (Hdeep (S k)). simpl. lia.
Qed.

(** Every candidate of a walk lies at most one separator below the
    directory the walk starts in, or at most four below the root. *)
Lemma walk_bound n : ∀ directory root g,
  well_named n = true → g ∈ walk directory root n [] →
  Str.count Str.sep (path g)
  ≤ Nat.max (Str.count Str.sep root + 1) (Str.count Str.sep directory + 4).
Proof.
  induction n as [| |entries IH] using node_induction;
    intros directory root g Hw.
  - by intros ?%elem_of_nil.
  - by intros ?%elem_of_nil.
  - rewrite walk_Dir. cbv zeta.
    assert (Hfiles : ∀ g, g ∈ scan_files root (walk_files entries) [] →
              Str.count Str.sep (path g) ≤ Str.count Str.sep root + 1).
    { intros g' (file & Hf & _ & ->)%scan_files_spec. simpl.
      unfold walk_files in Hf.
      apply list_elem_of_In, in_map_iff in Hf as ([f nd] & <- & Hf).
      apply filter_In in Hf as [Hf _]. apply list_elem_of_In in Hf.
      apply well_named_entries in Hw. rewrite Forall_forall in Hw.
      destruct (Hw _ Hf) as [Hname _]. simpl in *.
      pose proof (count_join_le root f Hname). lia. }
    destruct (too_deep directory root) eqn:Hd.
    { intros Hg%Hfiles. lia. }
    rewrite fold_left_acc by apply descend_steps_acc.
    intros [Hg%Hfiles|Hg]%elem_of_app; [lia|].
    assert (Hroot : Str.count Str.sep root ≤ Str.count Str.sep directory + 2).
    { unfold too_deep in Hd. apply Z.ltb_ge in Hd. lia. }
    apply elem_of_fold_left_acc_inv in Hg as ([d sub] & Hin & Hg);
      [|apply descend_steps_acc].
    apply well_named_entries in Hw. rewrite Forall_forall in Hw, IH.
    destruct (Hw _ Hin) as [Hname Hsub]. specialize (IH _ Hin).
    unfold descend_step in Hg. simpl in *.
    destruct (is_dir sub); [|by apply elem_of_nil in Hg].
    apply IH in Hg; [|done].
    pose proof (count_join_le root d Hname). lia.
Qed.

End Walk.

(** C4, as the depth bound is worded: an executable three levels below
    the root would not be returned.  [minecraft.exe] in [D:\games\a\b\c]
    is three levels below [D:\games], it qualifies, and the deep scan
    returns it. *)
Lemma three_levels_below_returned :
  reaches tree_c4 ["a"; "b"; "c"] (Dir (Some [("minecraft.exe", File)]))
  ∧ qualifies "minecraft.exe" (dir_at "D:\games" ["a"; "b"; "c"]) = true
  ∧ Game "c" "D:\games\a\b\c\minecraft.exe"
    ∈ scan_directory_deep "D:\games" tree_c4 [].
Proof.
  split_and!.
  - repeat (eapply reaches_down; [by left|]). apply reaches_here.
  - vm_compute. reflexivity.
  - vm_compute. by left.
Qed.

(** C4, amended. In a tree of well-formed names, a qualifying executable
    in a directory at most 3 levels below the root is returned (so also one
    exactly 2 levels below); when the root's path does not end with a
    separator, one in a directory 4 or more levels below is not returned.
    A visited directory whose separator count exceeds the root's by more
    than 2 has its files examined and is not descended further; the
    candidates found before are kept. *)
Theorem deep_scan_depth_bound (directory : string) (n : node)
  (names : list string) (entries : list (string * node)) (file : string) :
  well_named n = true →
  reaches n names (Dir (Some entries)) →
  (file, File) ∈ entries →
  qualifies file (dir_at directory names) = true →
  (length names ≤ 3 →
     ∀ games, candidate (dir_at directory names) file
              ∈ scan_directory_deep directory n games)
  ∧ (plain_root directory = true → 4 ≤ length names →
       ∀ g, g ∈ scan_directory_deep directory n [] →
            path g ≠ Path.join (dir_at directory names) file)
  ∧ (∀ root es games, too_deep directory root = true →
       walk directory root (Dir (Some es)) games
       = scan_files root (walk_files es) games)
  ∧ (∀ games, scan_directory_deep directory n games
              = games ++ scan_directory_deep directory n []).
Proof.
  intros Hwn Hreach Hfile Hq.
  destruct (reaches_well_named _ _ _ Hreach Hwn) as [Hnames Hm].
  assert (Hfname : entry_name file = true).
  { apply well_named_entries in Hm. rewrite Forall_forall in Hm.
    by destruct (Hm _ Hfile). }
  split_and!.
  - intros Hlen games. unfold scan_directory_deep.
    rewrite walk_acc. apply elem_of_app. right.
    eapply walk_finds; [exact Hreach|done|exact Hfile|exact Hq|].
    intros k Hk. apply too_deep_false.
    pose proof (dir_at_count_le (take k names) directory) as Hc.
    rewrite length_take in Hc.
    etrans; [apply Hc; by apply Forall_take|]. lia.
  - intros Hplain Hlen g Hg Heq. unfold scan_directory_deep in Hg.
    apply walk_bound in Hg; [|done].
    destruct (dir_at_plain names directory Hplain Hnames) as [Hp Hc].
    rewrite Heq, count_join_plain, Hc in Hg by done. lia.
  - intros root es games Hd. rewrite walk_Dir. cbv zeta. by rewrite Hd.
  - intros games. apply walk_acc.
Qed.

Lemma deep_scan_depth_bound_witness :
  candidate (dir_at "D:\games" ["a"; "b"; "c"]) "minecraft.exe"
  ∈ scan_directory_deep "D:\games" tree_c4 [].
Proof.
  refine (proj1 (deep_scan_depth_bound "D:\games" tree_c4 ["a"; "b"; "c"]
                   [("minecraft.exe", File)] "minecraft.exe" _ _ _ _) _ []).
  - reflexivity.
  - repeat (eapply reaches_down; [by left|]). apply reaches_here.
  - by left.
  - vm_compute. reflexivity.
  - simpl. lia.
Defined.

(** ** The shallow scan *)

Section Shallow.















End Shallow.




(** ** The classifier on fixed file names *)

Section Classifier.

Lemma clean_setup : clean "setup.exe" = "setup.exe".
Proof. reflexivity. Qed.

Lemma clean_minecraft : clean "Minecraft.exe" = "minecraft.exe".
Proof. reflexivity. Qed.

Lemma clean_mine_craft : clean "mine-craft.exe" = "minecraft.exe".
Proof. reflexivity. Qed.

Lemma blacklisted_setup : Str.any_in blacklist "setup.exe" = true.
Proof. vm_compute. reflexivity. Qed.

Lemma minecraft_not_blacklisted : Str.any_in blacklist "minecraft.exe" = false.
Proof. vm_compute. reflexivity. Qed.

Lemma minecraft_popular : Str.any_in popular_games "minecraft.exe" = true.
Proof. vm_compute. reflexivity. Qed.

End Classifier.

(** C6. Classifier on fixed inputs: whatever the containing path,
    [setup.exe] is rejected and both [Minecraft.exe] and [mine-craft.exe]
    are accepted; the two names have the same normalized form, and the
    blacklist and the popular titles are looked up in that form. *)
Theorem classifier_fixed_inputs (p : string) :
  is_likely_game "setup.exe" p = false
  ∧ is_likely_game "Minecraft.exe" p = true
  ∧ is_likely_game "mine-craft.exe" p = true
  ∧ clean "Minecraft.exe" = clean "mine-craft.exe"
  ∧ clean "Minecraft.exe" = "minecraft.exe".
Proof.
  unfold is_likely_game. cbv zeta.
  rewrite clean_setup, clean_minecraft, clean_mine_craft.
  rewrite blacklisted_setup, minecraft_not_blacklisted, minecraft_popular.
  done.
Qed.

(** ** Methods and their events *)

Section Commands.

Lemma events_of_bind {A B} (m : cmd A) (f : A → cmd B) s :
  events_of (m ≫= f) s
  = events_of m s ++ events_of (f (m s).1.1) (state_after m s).
Proof.
  unfold events_of, state_after, mbind, cmd_bind.
  destruct (m s) as [[a s1] t1]. simpl.
  by destruct (f a s1) as [[b s2] t2].
Qed.

Lemma state_after_bind {A B} (m : cmd A) (f : A → cmd B) s :
  state_after (m ≫= f) s = state_after (f (m s).1.1) (state_after m s).
Proof.
  unfold state_after, mbind, cmd_bind.
  destruct (m s) as [[a s1] t1]. simpl.
  by destruct (f a s1) as [[b s2] t2].
Qed.

Lemma quiet_bind {A B} (m : cmd A) (f : A → cmd B) :
  quiet m → (∀ a, quiet (f a)) → quiet (m ≫= f).
Proof.
  intros Hm Hf s. rewrite events_of_bind. apply Forall_app. split; [apply Hm|apply Hf].
Qed.

Lemma quiet_get : quiet get.
Proof. intros s. constructor. Qed.

Lemma quiet_modify f : quiet (modify f).
Proof. intros s. constructor. Qed.

Lemma quiet_skip : quiet skip.
Proof. intros s. constructor. Qed.

Lemma quiet_emit e : writes_favorites e = false → quiet (emit e).
Proof. intros He s. by repeat constructor. Qed.

Lemma quiet_emit_all es :
  Forall (λ e, writes_favorites e = false) es → quiet (emit_all es).
Proof. intros He s. exact He. Qed.

Create HintDb quiet.

Ltac quiet_step :=
  first
    [ apply quiet_bind; [|intros ?]
    | apply quiet_get
    | apply quiet_modify
    | apply quiet_skip
    | apply quiet_emit; reflexivity
    | solve [auto with quiet] ].

Lemma quiet_populate l t : quiet (populate_modern_game_list l t).
Proof. unfold populate_modern_game_list. repeat quiet_step. Qed.
Hint Resolve quiet_populate : quiet.

Lemma quiet_populate_favorites_list : quiet populate_favorites_list.
Proof. unfold populate_favorites_list. repeat quiet_step. Qed.
Hint Resolve quiet_populate_favorites_list : quiet.

Lemma quiet_populate_deleted_list : quiet populate_deleted_list.
Proof. unfold populate_deleted_list. repeat quiet_step. Qed.
Hint Resolve quiet_populate_deleted_list : quiet.

Lemma quiet_update_game_lists : quiet update_game_lists.
Proof. unfold update_game_lists. repeat quiet_step. Qed.
Hint Resolve quiet_update_game_lists : quiet.

Lemma quiet_filter_games : quiet filter_games.
Proof.
  unfold filter_games. repeat quiet_step.
Qed.
Hint Resolve quiet_filter_games : quiet.

Lemma quiet_save_deleted_games : quiet save_deleted_games.
Proof. unfold save_deleted_games. repeat quiet_step. Qed.
Hint Resolve quiet_save_deleted_games : quiet.

Lemma quiet_scan_games_thread : quiet scan_games_thread.
Proof.
  unfold scan_games_thread. apply quiet_bind; [apply quiet_get|].
  intros s. destruct (scanning s); repeat quiet_step.
Qed.

Lemma quiet_refresh_games : quiet refresh_games.
Proof.
  unfold refresh_games. apply quiet_bind; [apply quiet_get|].
  intros s. destruct (negb (scanning s));
    [apply quiet_scan_games_thread|apply quiet_skip].
Qed.

Lemma progress_events_quiet w :
  Forall (λ e, writes_favorites e = false) (progress_events w).
Proof.
  unfold progress_events. apply Forall_forall.
  intros e (i & d & -> & _)%elem_of_lookup_imap_1. reflexivity.
Qed.

Lemma quiet_scan_for_games w : quiet (scan_for_games w).
Proof.
  unfold scan_for_games. repeat quiet_step.
  apply quiet_emit_all, progress_events_quiet.
Qed.

Lemma quiet_add_custom_path w directory : quiet (add_custom_path w directory).
Proof.
  unfold add_custom_path. destruct (String.eqb directory ""); [apply quiet_skip|].
  apply quiet_bind; [repeat quiet_step|]. intros _.
  destruct (match lookup w directory with
            | Some n => scan_directory_deep directory n []
            | None => []
            end); repeat quiet_step.
Qed.

Lemma quiet_restore_game g : quiet (restore_game g).
Proof. unfold restore_game. repeat quiet_step. Qed.

Lemma quiet_launch_game p present : quiet (launch_game p present).
Proof. unfold launch_game. destruct present; repeat quiet_step. Qed.

Lemma quiet_not_written {A} (c : cmd A) s doc :
  quiet c → Dump FavoritesFile doc ∉ events_of c s.
Proof.
  intros Hq Hin. specialize (Hq s). rewrite Forall_forall in Hq.
  by apply Hq in Hin.
Qed.

Lemma toggle_favorite_events g s :
  events_of (toggle_favorite g) s
  = (if decide (name g ∈ name <$> favorites s)
     then [Status (Removed_from_favorites (name g));
           Dump FavoritesFile (filter (λ f, name f ≠ name g) (favorites s))]
     else [Status (Added_to_favorites (name g));
           Dump FavoritesFile (favorites s ++ [g])])
    ++ events_of update_game_lists
         (set_favorites
            (if decide (name g ∈ name <$> favorites s)
             then filter (λ f, name f ≠ name g) (favorites s)
             else favorites s ++ [g]) s).
Proof.
  unfold toggle_favorite, events_of, mbind, cmd_bind, get. simpl.
  destruct (decide (name g ∈ name <$> favorites s)); reflexivity.
Qed.

Lemma toggle_favorite_state g s :
  state_after (toggle_favorite g) s
  = set_favorites
      (drop_deleted (deleted_games s)
         (if decide (name g ∈ name <$> favorites s)
          then filter (λ f, name f ≠ name g) (favorites s)
          else favorites s ++ [g])) s.
Proof.
  unfold toggle_favorite, state_after, mbind, cmd_bind, get. simpl.
  destruct (decide (name g ∈ name <$> favorites s)); reflexivity.
Qed.

Lemma delete_game_events g s :
  events_of (delete_game g true) s
  = [Dump DeletedFile (deleted_games s ++ [g]);
     Dump FavoritesFile (filter (λ f, path f ≠ path g) (favorites s))]
    ++ events_of update_game_lists
         (Launcher (filter (λ h, path h ≠ path g) (games s))
                   (filter (λ f, path f ≠ path g) (favorites s))
                   (deleted_games s ++ [g])
                   (filter (λ h, path h ≠ path g) (filtered_games s))
                   (scanning s) (search s))
    ++ [Status (Deleted_game (name g))].
Proof. reflexivity. Qed.

End Commands.

(** ** Claims on the orchestrator, the documents and the favorites *)

(** When no scan is running the trigger does start one: the guard of C7
    is what stops the second scan, not an entry point that never scans. *)
Lemma scan_starts_when_idle (s : launcher) :
  scanning s = false →
  events_of refresh_games s
  = [Status Scanning_for_games; Progress Initializing; Thread_start]
  ∧ scanning (state_after refresh_games s) = true.
Proof.
  intros H. unfold refresh_games, scan_games_thread, events_of, state_after,
    mbind, cmd_bind, get. simpl. rewrite H. simpl. rewrite H. done.
Qed.

(** C7. Re-entrancy guard: while a scan is running, the scan trigger
    ([scan_games_thread], and [refresh_games], which calls it) changes no
    field of the launcher and does nothing outside: no worker is started
    and no status or progress is set. *)
Theorem scan_reentrancy_guard (s : launcher) :
  scanning s = true →
  scan_games_thread s = (tt, s, [])
  ∧ refresh_games s = (tt, s, [])
  ∧ state_after scan_games_thread s = s
  ∧ events_of scan_games_thread s = [].
Proof.
  intros H.
  unfold refresh_games, scan_games_thread, events_of, state_after,
    mbind, cmd_bind, get. simpl. rewrite H. done.
Qed.

Lemma scan_reentrancy_guard_witness :
  scanning launcher_c7 = true
  ∧ scan_games_thread launcher_c7 = (tt, launcher_c7, [])
  ∧ refresh_games launcher_c7 = (tt, launcher_c7, []).
Proof.
  split; [reflexivity|].
  split; apply (scan_reentrancy_guard launcher_c7 eq_refl).
Defined.

(** C8, as the frame condition is worded: only a favorite toggle would
    rewrite the favorites document.  Deleting a game that is not even a
    favorite rewrites it. *)
Lemma delete_rewrites_favorites :
  Dump FavoritesFile [] ∈ events_of (run (Delete_game doom true)) launcher_c8
  ∧ favorites launcher_c8 = []
  ∧ ∀ g, Delete_game doom true ≠ Toggle_favorite g.
Proof.
  split_and!; [|done|done].
  vm_compute. right. by left.
Qed.

(** C8, amended. The favorites document is rewritten by a favorite toggle
    and by a confirmed deletion, and by no other operation; the refresh of
    the favorites view, which filters the favorites against the deleted
    set, does not write it, nor does the update of the lists. *)
Theorem favorites_document_writers (o : operation) (s : launcher) :
  ((∃ doc, Dump FavoritesFile doc ∈ events_of (run o) s)
   ↔ ((∃ g, o = Toggle_favorite g) ∨ (∃ g, o = Delete_game g true)))
  ∧ (∀ doc, Dump FavoritesFile doc ∉ events_of populate_favorites_list s)
  ∧ (∀ doc, Dump FavoritesFile doc ∉ events_of update_game_lists s).
Proof.
  split_and!.
  - split.
    + intros [doc Hdoc].
      destruct o as [| |w|w d|g|g|g [|]| | | | |p present]; simpl in Hdoc;
        try (by right; eexists); try (by left; eexists);
        exfalso; revert Hdoc; apply quiet_not_written;
        auto using quiet_refresh_games, quiet_scan_games_thread,
          quiet_scan_for_games, quiet_add_custom_path, quiet_restore_game,
          quiet_filter_games, quiet_update_game_lists,
          quiet_populate_favorites_list, quiet_populate_deleted_list,
          quiet_launch_game, quiet_skip.
    + intros [[g ->]|[g ->]].
      * change (run (Toggle_favorite g)) with (toggle_favorite g).
        rewrite toggle_favorite_events.
        destruct (decide (name g ∈ name <$> favorites s)); eexists;
          right; left.
      * change (run (Delete_game g true)) with (delete_game g true).
        rewrite delete_game_events. eexists. right; left.
  - intros doc. apply quiet_not_written, quiet_populate_favorites_list.
  - intros doc. apply quiet_not_written, quiet_update_game_lists.
Qed.

(** C9. Loading an override document: a missing file leaves the empty
    collection [__init__] starts with; a malformed one gives the empty
    collection, whatever was there, after the error is printed; in no case
    does the load raise. *)
Theorem load_documents_robust (s : launcher) (other : file_state) :
  (∃ s' t, init Missing other = Returns (s', t) ∧ favorites s' = [])
  ∧ (∃ s' t, init other Missing = Returns (s', t) ∧ deleted_games s' = [])
  ∧ load_favorites Missing s = Returns (s, [])
  ∧ load_deleted_games Missing s = Returns (s, [])
  ∧ load_favorites Malformed s
    = Returns (set_favorites [] s, [Printed (Error_loading FavoritesFile DecodeError)])
  ∧ load_deleted_games Malformed s
    = Returns (set_deleted_games [] s, [Printed (Error_loading DeletedFile DecodeError)])
  ∧ (∀ f, ∃ r, load_favorites f s = Returns r)
  ∧ (∀ f, ∃ r, load_deleted_games f s = Returns r)
  ∧ (∀ fav del, ∃ r, init fav del = Returns r).
Proof.
  split_and!; try reflexivity.
  - destruct other; simpl; eauto.
  - destruct other; simpl; eauto.
  - intros []; simpl; eauto.
  - intros []; simpl; eauto.
  - intros [] []; simpl; eauto.
Qed.

(** ** Favorites are told apart by name *)

Section Favorites.

Lemma drop_deleted_app deleted l1 l2 :
  drop_deleted deleted (l1 ++ l2)
  = drop_deleted deleted l1 ++ drop_deleted deleted l2.
Proof. apply filter_app. Qed.

Lemma NoDup_names_sublist (l1 l2 : list game) :
  l1 `sublist_of` l2 → NoDup (name <$> l2) → NoDup (name <$> l1).
Proof.
  intros Hs Hn. eapply sublist_NoDup; [exact Hn|]. by apply fmap_sublist.
Qed.

Lemma NoDup_names_inj (l : list game) f1 f2 :
  NoDup (name <$> l) → f1 ∈ l → f2 ∈ l → name f1 = name f2 → f1 = f2.
Proof.
  induction l as [|x l IH]; simpl; intros Hn H1 H2 Heq.
  - by apply elem_of_nil in H1.
  - apply NoDup_cons in Hn as [Hx Hn].
    apply elem_of_cons in H1 as [->|H1]; apply elem_of_cons in H2 as [->|H2].
    + done.
    + exfalso. apply Hx. rewrite Heq. by apply list_elem_of_fmap_2.
    + exfalso. apply Hx. rewrite <- Heq. by apply list_elem_of_fmap_2.
    + by apply IH.
Qed.

Lemma toggled_NoDup g (favs : list game) :
  NoDup (name <$> favs) →
  NoDup (name <$> (if decide (name g ∈ name <$> favs)
                   then filter (λ f, name f ≠ name g) favs
                   else favs ++ [g])).
Proof.
  intros Hn. destruct (decide (name g ∈ name <$> favs)) as [Hin|Hin].
  - eapply NoDup_names_sublist; [apply sublist_filter|done].
  - rewrite fmap_app. apply NoDup_app. split_and!; [done| |].
    + intros x Hx ->%list_elem_of_singleton. done.
    + simpl. apply NoDup_singleton.
Qed.

(** What an operation other than a toggle leaves of the favorites. *)
Lemma run_favorites_sublist o s :
  (∀ g, o ≠ Toggle_favorite g) →
  favorites (state_after (run o) s) `sublist_of` favorites s.
Proof.
  intros Hno.
  destruct o as [| |w|w d|g|g|g [|]| | | | |p present]; simpl;
    try (by destruct (Hno g)).
  - unfold refresh_games, scan_games_thread, state_after, mbind, cmd_bind, get.
    simpl. destruct (scanning s) eqn:E; simpl; rewrite ?E; reflexivity.
  - unfold scan_games_thread, state_after, mbind, cmd_bind, get.
    simpl. destruct (scanning s) eqn:E; simpl; rewrite ?E; reflexivity.
  - reflexivity.
  - unfold add_custom_path. destruct (String.eqb d ""); [reflexivity|].
    unfold state_after, mbind, cmd_bind. simpl.
    destruct (match lookup w d with
              | Some n => scan_directory_deep d n []
              | None => []
              end); simpl; [reflexivity|apply sublist_filter].
  - apply sublist_filter.
  - unfold state_after. simpl. unfold drop_deleted.
    etrans; apply sublist_filter.
  - reflexivity.
  - reflexivity.
  - apply sublist_filter.
  - apply sublist_filter.
  - reflexivity.
  - destruct present; reflexivity.
Qed.

Lemma run_NoDup_names o s :
  NoDup (name <$> favorites s) →
  NoDup (name <$> favorites (state_after (run o) s)).
Proof.
  intros Hn.
  assert (Hcase : (∃ g, o = Toggle_favorite g) ∨ ∀ g, o ≠ Toggle_favorite g).
  { destruct o; try (by right); left; by eexists. }
  destruct Hcase as [[g ->]|Hno].
  - change (run (Toggle_favorite g)) with (toggle_favorite g).
    rewrite toggle_favorite_state. simpl.
    eapply NoDup_names_sublist; [apply drop_deleted_sublist|].
    by apply toggled_NoDup.
  - eapply NoDup_names_sublist; [|exact Hn].
    by apply run_favorites_sublist.
Qed.

Lemma run_all_NoDup_names os : ∀ s,
  NoDup (name <$> favorites s) →
  NoDup (name <$> favorites (run_all os s)).
Proof.
  unfold run_all. induction os as [|o os IH]; intros s Hs; simpl; [done|].
  apply IH. by apply run_NoDup_names.
Qed.

Lemma filter_none {A} (P : A → Prop) `{∀ x, Decision (P x)} (l : list A) :
  Forall (λ x, ¬ P x) l → filter P l = [].
Proof.
  induction 1 as [|x l Hx _ IH]; [done|].
  by rewrite filter_cons_False.
Qed.

Lemma is_favorite_spec favs g :
  is_favorite favs g = true ↔ ∃ f, f ∈ favs ∧ name f = name g.
Proof.
  unfold is_favorite. rewrite existsb_exists. split.
  - intros (f & Hf%list_elem_of_In & He%String.eqb_eq). by exists f.
  - intros (f & Hf%list_elem_of_In & He%String.eqb_eq). by exists f.
Qed.

Lemma is_favorite_decide favs g :
  is_favorite favs g = bool_decide (name g ∈ name <$> favs).
Proof.
  destruct (is_favorite favs g) eqn:E; symmetry.
  - apply bool_decide_eq_true. apply is_favorite_spec in E as (f & Hf & <-).
    by apply list_elem_of_fmap_2.
  - apply bool_decide_eq_false. intros (f & Hn & Hf)%list_elem_of_fmap.
    assert (H : is_favorite favs g = true) by (apply is_favorite_spec; by exists f).
    congruence.
Qed.

Lemma populate_events l t s :
  events_of (populate_modern_game_list l t) s
  = [Cards t (map (fun h => (h, bool_decide (name h ∈ name <$> favorites s))) l)].
Proof.
  unfold populate_modern_game_list, events_of, mbind, cmd_bind, get, emit.
  simpl. do 2 f_equal. apply map_ext. intros h. by rewrite is_favorite_decide.
Qed.

Lemma update_game_lists_all_cards s :
  Cards AllTab (map (fun h => (h, bool_decide (name h ∈ name <$> favorites s)))
                    (filtered_games s))
  ∈ events_of update_game_lists s.
Proof.
  unfold update_game_lists. rewrite events_of_bind.
  apply elem_of_app. right. cbn [fst get].
  rewrite events_of_bind. apply elem_of_app. left.
  change (state_after get s) with s.
  rewrite populate_events. by left.
Qed.

End Favorites.

(** C10, as the consequence is worded: two entries with equal names and
    different paths could never both be favorites.  The favorites are
    loaded from the document as they are: a document holding two such
    entries makes both favorites, and a scan keeps them. *)
Lemma same_name_favorites_from_document :
  ∃ s0, init (Records [doom; doom_copy]) Missing = Returns (s0, [])
        ∧ favorites (state_after (full_scan world_c1) s0) = [doom; doom_copy]
        ∧ name doom = name doom_copy
        ∧ path doom ≠ path doom_copy.
Proof.
  eexists. split_and!; [reflexivity|vm_compute; reflexivity|reflexivity|discriminate].
Qed.

(** C10, amended. Favorites are told apart by name: a toggle for [g]
    looks for [g]'s name among the favorites; when it is there, every
    favorite with that name goes, whatever its path, otherwise [g] is
    appended, and the result is what is written to the document.  After a
    toggle for [g] at most one favorite has [g]'s name, and no operation
    makes two favorites with one name: names without duplicates stay so
    under every operation and every sequence of operations, as from the
    empty favorites of a first launch (a document that already holds two
    entries with one name is loaded as it is).  The star on a card is set
    exactly when some favorite has the card's name; the suppression of
    deleted games in the favorites view compares paths. *)
Theorem favorite_identity_by_name (g : game) (s : launcher) :
  (name g ∈ name <$> favorites s →
     Dump FavoritesFile (filter (λ f, name f ≠ name g) (favorites s))
       ∈ events_of (toggle_favorite g) s
     ∧ favorites (state_after (toggle_favorite g) s)
       = drop_deleted (deleted_games s)
           (filter (λ f, name f ≠ name g) (favorites s))
     ∧ ∀ f, f ∈ favorites (state_after (toggle_favorite g) s) → name f ≠ name g)
  ∧ (name g ∉ name <$> favorites s →
       Dump FavoritesFile (favorites s ++ [g]) ∈ events_of (toggle_favorite g) s
       ∧ favorites (state_after (toggle_favorite g) s)
         = drop_deleted (deleted_games s) (favorites s ++ [g]))
  ∧ length (filter (λ f, name f = name g)
                   (favorites (state_after (toggle_favorite g) s))) ≤ 1
  ∧ (∀ o, NoDup (name <$> favorites s) →
          NoDup (name <$> favorites (state_after (run o) s)))
  ∧ (∀ os f1 f2,
       f1 ∈ favorites (run_all os fresh) → f2 ∈ favorites (run_all os fresh) →
       name f1 = name f2 → path f1 = path f2)
  ∧ (is_favorite (favorites s) g = true ↔ ∃ f, f ∈ favorites s ∧ name f = name g)
  ∧ favorites (state_after populate_favorites_list s)
    = filter (λ f, path f ∉ path <$> deleted_games s) (favorites s)
  ∧ (∀ os f1 f2,
       NoDup (name <$> favorites s) →
       f1 ∈ favorites (run_all os s) → f2 ∈ favorites (run_all os s) →
       name f1 = name f2 → path f1 = path f2)
  ∧ (∀ l t,
       events_of (populate_modern_game_list l t) s
       = [Cards t (map (fun h => (h, bool_decide (name h ∈ name <$> favorites s)))
                       l)])
  ∧ Cards AllTab (map (fun h => (h, bool_decide (name h ∈ name <$> favorites s)))
                      (filtered_games s))
    ∈ events_of update_game_lists s
  ∧ Cards AllTab
      (map (fun h => (h, bool_decide
                           (name h ∈ name <$>
                              (if decide (name g ∈ name <$> favorites s)
                               then filter (λ f, name f ≠ name g) (favorites s)
                               else favorites s ++ [g]))))
           (filtered_games s))
    ∈ events_of (toggle_favorite g) s.
Proof.
  split_and!.
  - intros Hin. rewrite toggle_favorite_events, toggle_favorite_state.
    rewrite !decide_True by done. simpl. split_and!.
    + right; left.
    + done.
    + intros f [Hf _]%elem_of_drop_deleted.
      by apply list_elem_of_filter in Hf as [? _].
  - intros Hin. rewrite toggle_favorite_events, toggle_favorite_state.
    rewrite !decide_False by done. simpl. split; [right; left|done].
  - rewrite toggle_favorite_state. simpl.
    destruct (decide (name g ∈ name <$> favorites s)) as [Hin|Hin].
    + rewrite filter_none; [simpl; lia|].
      apply Forall_forall. intros f [Hf _]%elem_of_drop_deleted.
      apply list_elem_of_filter in Hf as [Hf _]. by intros ?.
    + rewrite drop_deleted_app, filter_app, length_app.
      rewrite (filter_none _ (drop_deleted _ (favorites s))).
      * etrans; [apply Nat.add_le_mono_l, length_filter|].
        etrans; [apply length_filter|]. simpl. lia.
      * apply Forall_forall. intros f [Hf _]%elem_of_drop_deleted Heq.
        apply Hin. rewrite <- Heq. by apply list_elem_of_fmap_2.
  - intros o. apply run_NoDup_names.
  - intros os f1 f2 H1 H2 Heq. f_equal.
    apply (NoDup_names_inj (favorites (run_all os fresh))); try done.
    apply run_all_NoDup_names. constructor.
  - apply is_favorite_spec.
  - reflexivity.
  - intros os f1 f2 Hn H1 H2 Heq. f_equal.
    apply (NoDup_names_inj (favorites (run_all os s))); try done.
    by apply run_all_NoDup_names.
  - intros l t. apply populate_events.
  - apply update_game_lists_all_cards.
  - rewrite toggle_favorite_events. apply elem_of_app. right.
    apply (update_game_lists_all_cards
             (set_favorites
                (if decide (name g ∈ name <$> favorites s)
                 then filter (λ f, name f ≠ name g) (favorites s)
                 else favorites s ++ [g]) s)).
Qed.

Lemma favorite_identity_by_name_witness :
  name doom_copy ∈ name <$> favorites (Launcher [doom_copy] [doom] [] [doom_copy] false "")
  ∧ path doom_copy ≠ path doom
  ∧ Cards AllTab [(doom_copy, true)]
    ∈ events_of update_game_lists (Launcher [doom_copy] [doom] [] [doom_copy] false "")
  ∧ favorites (state_after (toggle_favorite doom_copy)
                           (Launcher [doom_copy] [doom] [] [doom_copy] false "")) = [].
Proof.
  assert (H : name doom_copy
              ∈ name <$> favorites (Launcher [doom_copy] [doom] [] [doom_copy] false ""))
    by (by left).
  destruct (favorite_identity_by_name doom_copy
              (Launcher [doom_copy] [doom] [] [doom_copy] false ""))
    as (Hp & _ & _ & _ & _ & _ & _ & _ & _ & Hcards & _).
  split_and!; [exact H|discriminate|exact Hcards|].
  destruct (Hp H) as (_ & -> & _). vm_compute. reflexivity.
Defined.

(** ** The order of names and the published list *)

Section Order.

Lemma ascii_compare_trans a b c r :
  Ascii.compare a b = r → Ascii.compare b c = r → Ascii.compare a c = r.
Proof.
  unfold Ascii.compare. destruct r; intros H1 H2.
  - apply N.compare_eq_iff in H1, H2. apply N.compare_eq_iff. congruence.
  - apply N.compare_lt_iff in H1, H2. apply N.compare_lt_iff.
    by apply N.lt_trans with (Ascii.N_of_ascii b).
  - apply N.compare_gt_iff in H1, H2. apply N.compare_gt_iff.
    by apply N.lt_trans with (Ascii.N_of_ascii b).
Qed.

Lemma string_compare_lt_trans a : ∀ b c,
  String.compare a b = Lt → String.compare b c = Lt → String.compare a c = Lt.
Proof.
  induction a as [|x a IH]; intros [|y b] [|z c]; simpl; try done.
  destruct (Ascii.compare x y) eqn:Exy; try done;
    destruct (Ascii.compare y z) eqn:Eyz; try done; intros H1 H2.
  - apply Ascii.compare_eq_iff in Exy, Eyz. subst.
    assert (E : Ascii.compare z z = Eq) by (apply N.compare_refl).
    rewrite E. by apply (IH b).
  - apply Ascii.compare_eq_iff in Exy. subst. by rewrite Eyz.
  - apply Ascii.compare_eq_iff in Eyz. subst. by rewrite Exy.
  - by rewrite (ascii_compare_trans x y z Lt).
Qed.

Lemma string_leb_trans a b c :
  String.leb a b = true → String.leb b c = true → String.leb a c = true.
Proof.
  unfold String.leb.
  destruct (String.compare a b) eqn:Eab; [|
    |done].
  - apply String.compare_eq_iff in Eab. by subst.
  - destruct (String.compare b c) eqn:Ebc; [| |done]; intros _ _.
    + apply String.compare_eq_iff in Ebc. subst. by rewrite Eab.
    + by rewrite (string_compare_lt_trans a b c).
Qed.

#[local] Instance key_le_trans : Transitive (λ g h, Is_true (key_le g h)).
Proof.
  intros g h k H1%Is_true_true H2%Is_true_true. apply Is_true_true.
  unfold key_le in *. by eapply string_leb_trans.
Qed.

Lemma Sorted_filter (P : game → Prop) `{∀ g, Decision (P g)} l :
  Sorted key_le l → Sorted key_le (filter P l).
Proof.
  intros Hs. apply Sorted_StronglySorted in Hs; [|apply key_le_trans].
  apply StronglySorted_Sorted.
  induction Hs as [|g l Hl IH Hg]; [constructor|].
  destruct (decide (P g)).
  - rewrite filter_cons_True by done. constructor; [done|].
    rewrite Forall_forall in Hg. apply Forall_forall.
    intros h [_ Hh]%list_elem_of_filter. by apply Hg.
  - by rewrite filter_cons_False.
Qed.

(** The sort leaves a sorted list as it is. *)
Lemma sorted_fixed l : Sorted key_le l → sorted l = l.
Proof.
  induction 1 as [|g l Hs IH Hh]; simpl; [done|].
  rewrite IH. destruct Hh as [|h l' Hgh]; simpl; [done|].
  apply Is_true_true in Hgh. by rewrite Hgh.
Qed.

End Order.

(** ** What every operation keeps *)

Section Invariants.

Lemma delete_game_state g s :
  state_after (delete_game g true) s
  = Launcher (filter (λ h, path h ≠ path g) (games s))
             (drop_deleted (deleted_games s ++ [g])
                (filter (λ f, path f ≠ path g) (favorites s)))
             (deleted_games s ++ [g])
             (filter (λ h, path h ≠ path g) (filtered_games s))
             (scanning s) (search s).
Proof. reflexivity. Qed.

Lemma restore_game_state g s :
  state_after (restore_game g) s
  = Launcher (sorted (games s ++ [g]))
             (drop_deleted (filter (λ d, path d ≠ path g) (deleted_games s))
                (favorites s))
             (filter (λ d, path d ≠ path g) (deleted_games s))
             (if String.eqb (Str.lower (search s)) ""
              then sorted (games s ++ [g])
              else List.filter
                     (fun h => Str.contains (Str.lower (search s))
                                            (Str.lower (name h)))
                     (sorted (games s ++ [g])))
             (scanning s) (search s).
Proof. reflexivity. Qed.

Lemma add_custom_path_state w directory s :
  state_after (add_custom_path w directory) s
  = if String.eqb directory "" then s
    else match custom_found w directory with
         | [] => s
         | _ => Launcher (merged_games (custom_found w directory) s)
                         (drop_deleted (deleted_games s) (favorites s))
                         (deleted_games s)
                         (merged_games (custom_found w directory) s)
                         (scanning s) (search s)
         end.
Proof.
  unfold add_custom_path, custom_found.
  destruct (String.eqb directory ""); [reflexivity|].
  unfold state_after, mbind, cmd_bind. simpl.
  destruct (match lookup w directory with
            | Some n => scan_directory_deep directory n []
            | None => []
            end); [by destruct s|reflexivity].
Qed.

Lemma trigger_state s :
  state_after scan_games_thread s = set_scanning true s
  ∧ state_after refresh_games s = set_scanning true s.
Proof.
  unfold refresh_games, scan_games_thread, state_after, mbind, cmd_bind, get.
  simpl. destruct s as [? ? ? ? [] ?]; done.
Qed.

Lemma filter_games_state s :
  state_after filter_games s
  = set_filtered_games
      (if String.eqb (Str.lower (search s)) "" then games s
       else List.filter
              (fun g => Str.contains (Str.lower (search s)) (Str.lower (name g)))
              (games s)) s.
Proof. reflexivity. Qed.

Lemma List_filter_sublist {A} (f : A → bool) l : List.filter f l `sublist_of` l.
Proof.
  induction l as [|x l IH]; simpl; [constructor|].
  destruct (f x); by constructor.
Qed.

Lemma filter_sublist_mono {A} (P : A → Prop) `{∀ x, Decision (P x)} l1 l2 :
  l1 `sublist_of` l2 → filter P l1 `sublist_of` filter P l2.
Proof.
  induction 1 as [|x l1 l2 _ IH|x l1 l2 _ IH]; [constructor|..].
  - destruct (decide (P x)).
    + rewrite !filter_cons_True by done. by constructor.
    + by rewrite !filter_cons_False.
  - destruct (decide (P x)).
    + rewrite filter_cons_True by done. by constructor.
    + by rewrite filter_cons_False.
Qed.

Lemma run_ordered o s : ordered s → ordered (state_after (run o) s).
Proof.
  unfold ordered. intros Hs.
  destruct o as [| |w|w d|g|g|g [|]| | | | |p present]; cbn [run].
  - by rewrite (proj2 (trigger_state s)).
  - by rewrite (proj1 (trigger_state s)).
  - rewrite scan_for_games_games. apply sorted_Sorted.
  - rewrite add_custom_path_state. destruct (String.eqb d ""); [done|].
    destruct (custom_found w d); [done|]. apply sorted_Sorted.
  - rewrite restore_game_state. apply sorted_Sorted.
  - by rewrite toggle_favorite_state.
  - rewrite delete_game_state. simpl. by apply Sorted_filter.
  - done.
  - done.
  - done.
  - done.
  - done.
  - by destruct present.
Qed.

Lemma path_not_deleted_mono (del del' : list game) p :
  del' ⊆ del → p ∉ path <$> del → p ∉ path <$> del'.
Proof.
  intros Hsub Hn (d & -> & Hd)%list_elem_of_fmap. apply Hn.
  apply list_elem_of_fmap_2. by apply Hsub.
Qed.

Lemma run_consistent o s : consistent s → consistent (state_after (run o) s).
Proof.
  intros (Hg & Hf & Hv).
  assert (Hfav : ∀ del l f, f ∈ drop_deleted del l → path f ∉ path <$> del).
  { intros del l f [_ ?]%elem_of_drop_deleted. done. }
  destruct o as [| |w|w d|g|g|g [|]| | | | |p present]; cbn [run].
  - by rewrite (proj2 (trigger_state s)).
  - by rewrite (proj1 (trigger_state s)).
  - split_and!; simpl; [|done|done].
    intros g [_ ?]%elem_of_reconcile. done.
  - rewrite add_custom_path_state. destruct (String.eqb d ""); [done|].
    destruct (custom_found w d) as [|c cs] eqn:E; [done|].
    split_and!; simpl; [|by apply Hfav|done].
    unfold merged_games. intros g [Hin|Hin]%elem_of_sorted%elem_of_app.
    + by apply Hg.
    + apply list_elem_of_filter in Hin as [_ Hin]. by eapply Hfav.
  - rewrite restore_game_state. split_and!; simpl.
    + intros h [Hin|Hin]%elem_of_sorted%elem_of_app.
      * eapply path_not_deleted_mono; [|by apply Hg].
        intros x [_ ?]%list_elem_of_filter. done.
      * apply list_elem_of_singleton in Hin as ->.
        intros (d & Hp & [Hne _]%list_elem_of_filter)%list_elem_of_fmap.
        by apply Hne.
    + apply Hfav.
    + destruct (String.eqb _ _); [done|apply List_filter_sublist].
  - rewrite toggle_favorite_state. split_and!; simpl; [done|apply Hfav|done].
  - rewrite delete_game_state. split_and!; simpl.
    + intros h [Hne Hin]%list_elem_of_filter.
      rewrite fmap_app. intros [Hd|Hd%list_elem_of_singleton]%elem_of_app.
      * by apply (Hg h).
      * done.
    + apply Hfav.
    + by apply filter_sublist_mono.
  - done.
  - rewrite filter_games_state. split_and!; simpl; [done|done|].
    destruct (String.eqb _ _); [done|apply List_filter_sublist].
  - rewrite update_game_lists_state. split_and!; simpl; [done|apply Hfav|done].
  - split_and!; simpl; [done|apply Hfav|done].
  - done.
  - by destruct present.
Qed.

End Invariants.

(** X1. The published list stays in order of lowercased name: every
    operation of the launcher takes an ordered list to an ordered list, so
    the list is ordered after any sequence of operations from launch. *)
Theorem games_stay_ordered (o : operation) (s : launcher) :
  ordered s →
  ordered (state_after (run o) s)
  ∧ ∀ os, ordered (run_all os s).
Proof.
  intros Hs. split; [by apply run_ordered|].
  intros os. revert s Hs. unfold run_all.
  induction os as [|o' os IH]; intros s Hs; simpl; [done|].
  by apply IH, run_ordered.
Qed.

Lemma games_stay_ordered_witness :
  ordered fresh
  ∧ ordered (run_all [Scan_for_games world_c3; Delete_game doom true;
                      Restore_game doom] fresh).
Proof.
  assert (H : ordered fresh) by constructor.
  split; [exact H|].
  apply (games_stay_ordered Refresh_games fresh H).
Defined.

(** X2. Every operation keeps the collections consistent: when no
    published game and no favorite has a deleted path and the filtered view
    is part of the published list, the same holds after the operation. *)
Theorem operations_keep_consistency (o : operation) (s : launcher) :
  consistent s →
  consistent (state_after (run o) s)
  ∧ ∀ os, consistent (run_all os s).
Proof.
  intros Hs. split; [by apply run_consistent|].
  intros os. revert s Hs. unfold run_all.
  induction os as [|o' os IH]; intros s Hs; simpl; [done|].
  by apply IH, run_consistent.
Qed.

Lemma operations_keep_consistency_witness :
  consistent launcher_x2
  ∧ consistent (state_after (run (Delete_game doom true)) launcher_x2)
  ∧ games (state_after (run (Delete_game doom true)) launcher_x2)
    = [Game "Hades" "D:\games\Hades\hades.exe"]
  ∧ favorites (state_after (run (Delete_game doom true)) launcher_x2) = []
  ∧ deleted_games (state_after (run (Delete_game doom true)) launcher_x2) = [doom].
Proof.
  assert (H : consistent launcher_x2).
  { split_and!; [intros ? _; apply not_elem_of_nil
                |intros ? _; apply not_elem_of_nil|done]. }
  split_and!; [exact H| |vm_compute; reflexivity..].
  apply (operations_keep_consistency (Delete_game doom true) launcher_x2 H).
Defined.

(** ** Reconciling twice, deleting and restoring, toggling twice *)

Section RoundTrips.

Lemma first_occurrences_from_id l : ∀ before,
  NoDup (dedup_key <$> l) →
  (∀ g, g ∈ l → dedup_key g ∉ dedup_key <$> before) →
  first_occurrences_from before l = l.
Proof.
  induction l as [|g l IH]; intros before Hn Hb; simpl; [done|].
  rewrite fmap_cons in Hn. apply NoDup_cons in Hn as [Hg Hn].
  rewrite decide_False by (apply Hb; by left).
  f_equal. apply IH; [done|].
  intros h Hh. rewrite fmap_app. intros [Hin|Hin]%elem_of_app.
  - by apply (Hb h); [right|].
  - simpl in Hin. apply list_elem_of_singleton in Hin.
    apply Hg. rewrite <- Hin. by apply list_elem_of_fmap_2.
Qed.

Lemma unique_games_id l : NoDup (dedup_key <$> l) → unique_games l = l.
Proof.
  intros Hn. rewrite unique_games_first_occurrences.
  apply first_occurrences_from_id; [done|].
  intros g _. simpl. apply not_elem_of_nil.
Qed.

Lemma filter_all {A} (P : A → Prop) `{∀ x, Decision (P x)} (l : list A) :
  Forall P l → filter P l = l.
Proof.
  induction 1 as [|x l Hx _ IH]; [done|].
  rewrite filter_cons_True by done. by rewrite IH.
Qed.

Lemma drop_deleted_id deleted l :
  (∀ g, g ∈ l → path g ∉ path <$> deleted) → drop_deleted deleted l = l.
Proof. intros H. apply filter_all, Forall_forall, H. Qed.

Lemma drop_deleted_idemp deleted l :
  drop_deleted deleted (drop_deleted deleted l) = drop_deleted deleted l.
Proof.
  apply drop_deleted_id. by intros g [_ ?]%elem_of_drop_deleted.
Qed.

End RoundTrips.

(** X3. Reconciling a published list again, against the same deleted set,
    changes nothing: it has one entry for each key, none of them deleted,
    and is in order already. *)
Theorem reconcile_idempotent (raw deleted : list game) :
  reconcile (reconcile raw deleted) deleted = reconcile raw deleted.
Proof.
  unfold reconcile at 1.
  rewrite unique_games_id by apply reconcile_NoDup.
  rewrite drop_deleted_id by (by intros g [_ ?]%elem_of_reconcile).
  apply sorted_fixed. unfold reconcile. apply sorted_Sorted.
Qed.

(** X4. Deleting a game whose path was not deleted before and restoring
    it brings the deleted set back to what it was and the game back into
    the published list, in order, next to every game with another path;
    the favorites with its path do not come back. *)
Theorem restore_after_delete (g : game) (s : launcher) :
  path g ∉ path <$> deleted_games s →
  let s' := run_all [Delete_game g true; Restore_game g] s in
  deleted_games s' = deleted_games s
  ∧ g ∈ games s'
  ∧ games s' ≡ₚ filter (λ h, path h ≠ path g) (games s) ++ [g]
  ∧ Sorted key_le (games s')
  ∧ (∀ f, f ∈ favorites s' → path f ≠ path g).
Proof.
  intros Hg s'. unfold s', run_all. cbn [fold_left run].
  rewrite restore_game_state, delete_game_state. cbn [games favorites deleted_games].
  split_and!.
  - rewrite filter_app, filter_cons_False, filter_nil, app_nil_r by (by intros ?).
    apply filter_all, Forall_forall. intros d Hd Heq. apply Hg.
    rewrite <- Heq. by apply list_elem_of_fmap_2.
  - apply elem_of_sorted, elem_of_app. right. by left.
  - apply sorted_perm.
  - apply sorted_Sorted.
  - intros f [Hf _]%elem_of_drop_deleted.
    apply elem_of_drop_deleted in Hf as [Hf _].
    by apply list_elem_of_filter in Hf as [? _].
Qed.

Lemma restore_after_delete_witness :
  (path doom ∉ path <$> deleted_games launcher_c8)
  ∧ games (run_all [Delete_game doom true; Restore_game doom] launcher_c8)
    = [doom].
Proof.
  assert (H : path doom ∉ path <$> deleted_games launcher_c8)
    by apply not_elem_of_nil.
  split; [exact H|].
  destruct (restore_after_delete doom launcher_c8 H) as (_ & _ & Hp & _).
  vm_compute. reflexivity.
Defined.

(** X5. Toggling twice a game that is neither a favorite by name nor
    deleted leaves the favorites as a refresh of the favorites view would,
    and that list is what the second toggle writes to the document. *)
Theorem toggle_twice (g : game) (s : launcher) :
  name g ∉ name <$> favorites s →
  path g ∉ path <$> deleted_games s →
  favorites (run_all [Toggle_favorite g; Toggle_favorite g] s)
  = drop_deleted (deleted_games s) (favorites s)
  ∧ Dump FavoritesFile (drop_deleted (deleted_games s) (favorites s))
    ∈ events_of (toggle_favorite g) (state_after (toggle_favorite g) s).
Proof.
  intros Hn Hp.
  assert (H1 : favorites (state_after (toggle_favorite g) s)
               = drop_deleted (deleted_games s) (favorites s) ++ [g]).
  { rewrite toggle_favorite_state. simpl. rewrite decide_False by done.
    rewrite drop_deleted_app. f_equal. apply drop_deleted_id.
    intros h Hh. apply list_elem_of_singleton in Hh. by subst. }
  assert (H2 : name g ∈ name <$> favorites (state_after (toggle_favorite g) s)).
  { rewrite H1, fmap_app. apply elem_of_app. right. by left. }
  assert (H3 : filter (λ f, name f ≠ name g)
                      (favorites (state_after (toggle_favorite g) s))
               = drop_deleted (deleted_games s) (favorites s)).
  { rewrite H1, filter_app, filter_cons_False, filter_nil, app_nil_r
      by (by intros ?).
    apply filter_all, Forall_forall. intros f [Hf _]%elem_of_drop_deleted Heq.
    apply Hn. rewrite <- Heq. by apply list_elem_of_fmap_2. }
  split.
  - unfold run_all. cbn [fold_left run].
    rewrite (toggle_favorite_state g (state_after (toggle_favorite g) s)).
    simpl. rewrite decide_True by done. rewrite H3.
    rewrite toggle_favorite_state at 1. simpl. apply drop_deleted_idemp.
  - rewrite toggle_favorite_events. rewrite decide_True by done.
    rewrite H3. right; left.
Qed.

Lemma toggle_twice_witness :
  favorites (run_all [Toggle_favorite doom; Toggle_favorite doom] launcher_c8)
  = [].
Proof.
  refine (eq_trans (proj1 (toggle_twice doom launcher_c8 _ _)) _).
  - apply not_elem_of_nil.
  - apply not_elem_of_nil.
  - reflexivity.
Defined.

(** X6. Starring a game that is deleted (from the deleted tab) writes it
    into the favorites document, while the favorites kept in memory, which
    the list update filters at once, do not hold it. *)
Theorem star_on_deleted_game (g : game) (s : launcher) :
  name g ∉ name <$> favorites s →
  path g ∈ path <$> deleted_games s →
  Dump FavoritesFile (favorites s ++ [g]) ∈ events_of (toggle_favorite g) s
  ∧ (g ∉ favorites (state_after (toggle_favorite g) s))
  ∧ favorites (state_after (toggle_favorite g) s)
    = drop_deleted (deleted_games s) (favorites s).
Proof.
  intros Hn Hp. rewrite toggle_favorite_events, toggle_favorite_state.
  rewrite !decide_False by done. simpl. split_and!.
  - right; left.
  - by intros [_ ?]%elem_of_drop_deleted.
  - rewrite drop_deleted_app.
    unfold drop_deleted at 2. rewrite filter_cons_False by (by intros ?).
    by rewrite filter_nil, app_nil_r.
Qed.

Lemma star_on_deleted_game_witness :
  Dump FavoritesFile [doom]
  ∈ events_of (toggle_favorite doom) (Launcher [] [] [doom] [] false "")
  ∧ favorites (state_after (toggle_favorite doom)
                           (Launcher [] [] [doom] [] false "")) = [].
Proof.
  destruct (star_on_deleted_game doom (Launcher [] [] [doom] [] false ""))
    as (H1 & _ & H3).
  - apply not_elem_of_nil.
  - by left.
  - split; [exact H1|exact H3].
Defined.

(** ** Where candidates come from *)

Section Candidates.
















End Candidates.





(** X9. A directory that cannot be listed is passed over by both
    traversals: the scan of a root gives what it would give without that
    child, and goes on with the children after it. *)
Theorem unreadable_child_is_skipped (directory : string)
  (l1 l2 : list (string * node)) (d : string) (games : list game) :
  scan_directory_shallow directory (Dir (Some (l1 ++ (d, Dir None) :: l2))) games
  = scan_directory_shallow directory (Dir (Some (l1 ++ l2))) games
  ∧ scan_directory_deep directory (Dir (Some (l1 ++ (d, Dir None) :: l2))) games
    = scan_directory_deep directory (Dir (Some (l1 ++ l2))) games.
Proof.
  split.
  - unfold scan_directory_shallow. rewrite !fold_left_app. cbn [fold_left].
    replace (shallow_item directory (fold_left (shallow_item directory) l1 games)
                          (d, Dir None))
      with (fold_left (shallow_item directory) l1 games); [done|].
    unfold shallow_item. cbn [fst snd is_dir].
    by destruct (is_likely_game_directory d).
  - unfold scan_directory_deep. rewrite !walk_Dir. cbv zeta.
    assert (Hfiles : walk_files (l1 ++ (d, Dir None) :: l2) = walk_files (l1 ++ l2)).
    { unfold walk_files. by rewrite !List.filter_app. }
    rewrite Hfiles. destruct (too_deep directory directory); [done|].
    by rewrite !fold_left_app.
Qed.

(** ** Names of candidates, normalization and the classifier's terms *)

Section Names.

Lemma has_sep_append_sep a n : Str.has_sep (a +:+ String Str.sep n) = true.
Proof. induction a as [|c a IH]; simpl; [done|]. rewrite IH. apply orb_true_r. Qed.

Lemma after_last_sep_append a n :
  Str.has_sep n = false → Path.after_last_sep (a +:+ String Str.sep n) = n.
Proof.
  intros Hn. induction a as [|c a IH].
  - simpl. by rewrite Hn.
  - change (String c a +:+ String Str.sep n)
      with (String c (a +:+ String Str.sep n)).
    cbn [Path.after_last_sep]. by rewrite has_sep_append_sep.
Qed.

Lemma basename_join p d :
  plain_root p = true → entry_name d = true →
  Path.basename (Path.join p d) = d.
Proof.
  intros Hp Hd. destruct (join_plain p d Hp Hd) as [-> _].
  unfold Path.basename, plain_root in *.
  destruct (Str.last (snd (Path.splitdrive p))) as [c|] eqn:E; [|done].
  rewrite (splitdrive_append_sep _ _ c E).
  apply after_last_sep_append.
  by apply andb_true_iff in Hd as [_ ?%negb_true_iff].
Qed.

Lemma count_startswith c t : ∀ s,
  Str.startswith s t = true → Str.count c t ≤ Str.count c s.
Proof.
  induction t as [|a t IH]; intros [|b s]; simpl; try done; [lia|].
  intros [Hab Hs]%andb_true_iff. apply Ascii.eqb_eq in Hab as ->.
  specialize (IH s Hs). lia.
Qed.

Lemma count_contains c t s :
  Str.contains t s = true → Str.count c t ≤ Str.count c s.
Proof.
  induction s as [|b s IH].
  - destruct t; simpl; [lia|done].
  - cbn [Str.contains Str.count]. intros [H|H]%orb_true_iff.
    + by apply (count_startswith c) in H.
    + specialize (IH H). lia.
Qed.

Lemma count_remove_same c s : Str.count c (Str.remove_char c s) = 0.
Proof.
  induction s as [|d s IH]; simpl; [done|].
  destruct (Ascii.eqb d c) eqn:E; [done|]. simpl. by rewrite E.
Qed.

Lemma count_remove_le c d s :
  Str.count c (Str.remove_char d s) ≤ Str.count c s.
Proof.
  induction s as [|e s IH]; simpl; [done|].
  destruct (Ascii.eqb e d); simpl; lia.
Qed.

Lemma clean_counts s :
  Str.count " " (clean s) = 0 ∧ Str.count "-" (clean s) = 0
  ∧ Str.count "_" (clean s) = 0.
Proof.
  unfold clean. split_and!.
  - pose proof (count_remove_le " " "_" (Str.remove_char "-"
                  (Str.remove_char " " (Str.lower s)))).
    pose proof (count_remove_le " " "-" (Str.remove_char " " (Str.lower s))).
    pose proof (count_remove_same " " (Str.lower s)). lia.
  - pose proof (count_remove_le "-" "_" (Str.remove_char "-"
                  (Str.remove_char " " (Str.lower s)))).
    pose proof (count_remove_same "-" (Str.remove_char " " (Str.lower s))). lia.
  - apply count_remove_same.
Qed.

Lemma not_in_clean c t s :
  Str.count c (clean s) = 0 → 0 < Str.count c t →
  Str.contains t (clean s) = false.
Proof.
  intros H0 Ht. destruct (Str.contains t (clean s)) eqn:E; [|done].
  apply (count_contains c) in E. lia.
Qed.

Lemma lower_char_idem c : Str.lower_char (Str.lower_char c) = Str.lower_char c.
Proof. destruct c as [[] [] [] [] [] [] [] []]; reflexivity. Qed.

Lemma lower_idem s : Str.lower (Str.lower s) = Str.lower s.
Proof. induction s; simpl; [done|]. by rewrite lower_char_idem, IHs. Qed.

Lemma lower_char_separator c d :
  d = " "%char ∨ d = "-"%char ∨ d = "_"%char →
  Ascii.eqb (Str.lower_char c) d = Ascii.eqb c d.
Proof.
  intros [->|[->| ->]]; destruct c as [[] [] [] [] [] [] [] []]; reflexivity.
Qed.

Lemma lower_remove d s :
  d = " "%char ∨ d = "-"%char ∨ d = "_"%char →
  Str.lower (Str.remove_char d s) = Str.remove_char d (Str.lower s).
Proof.
  intros Hd. induction s as [|c s IH]; simpl; [done|].
  rewrite lower_char_separator by done.
  destruct (Ascii.eqb c d); simpl; by rewrite IH.
Qed.

Lemma remove_none c s : Str.count c s = 0 → Str.remove_char c s = s.
Proof.
  induction s as [|d s IH]; simpl; [done|].
  destruct (Ascii.eqb d c); [done|]. intros H. by rewrite IH.
Qed.

Lemma clean_idem s : clean (clean s) = clean s.
Proof.
  destruct (clean_counts s) as (H1 & H2 & H3).
  unfold clean at 1.
  assert (Hl : Str.lower (clean s) = clean s).
  { unfold clean. rewrite !lower_remove by auto. by rewrite lower_idem. }
  rewrite Hl. by rewrite (remove_none " "), (remove_none "-"), (remove_none "_").
Qed.

End Names.

(** X10. Under a drive-letter root that does not end with a separator,
    the base name of the path the scan gives a child directory is the
    child's name, so the display name of a candidate found there is made
    from that name alone: the name without its noise suffixes, or the
    file's stem when what is left is a generic name. *)
Theorem candidate_name_from_directory (p d file : string) :
  drive_letter_path p = true →
  plain_root p = true → entry_name d = true →
  Path.basename (Path.join p d) = d
  ∧ drive_letter_path (Path.join p d) = true
  ∧ name (candidate (Path.join p d) file)
    = (let nm := fold_left strip_suffix noise_suffixes d in
       if Str.mem (Str.lower nm) generic_names
       then Path.splitext_root file else nm).
Proof.
  intros Hdrive Hp Hd. split_and!; [by apply basename_join| |].
  - destruct (join_plain p d Hp Hd) as [-> _].
    by destruct p as [|a [|b rest]].
  - unfold candidate, get_game_name_from_path. cbn [name].
    by rewrite basename_join.
Qed.

Lemma candidate_name_from_directory_witness :
  name (candidate (Path.join "D:\games" "Portal 2 - Copy") "portal2.exe")
  = "Portal 2".
Proof.
  refine (eq_trans (proj2 (proj2 (candidate_name_from_directory "D:\games"
                             "Portal 2 - Copy" "portal2.exe" _ _ _))) _);
    reflexivity.
Defined.

(** X11. Terms of the classifier that can never match: the normalized
    form has no space, hyphen or underscore, so the blacklist term
    [launcher_] and the six platform names written with a space match no
    file name and no path.  A file is accepted only when a popular title
    matches, or its path holds [steamapps\common], [ubisoft] or
    [battle.net], or its path holds a custom game root. *)
Theorem classifier_dead_terms (filename path_ : string) :
  Str.contains "launcher_" (clean filename) = false
  ∧ (∀ t, t ∈ ["epic games"; "origin games"; "riot games"; "gog games";
               "xbox games"; "rockstar games"] →
          Str.contains (Str.replace_char "/" "\" t) (clean path_) = false)
  ∧ (is_likely_game filename path_ = true →
       Str.any_in popular_games (clean filename) = true
       ∨ Str.any_in popular_games (clean path_) = true
       ∨ Str.contains "steamapps\common" (clean path_) = true
       ∨ Str.contains "ubisoft" (clean path_) = true
       ∨ Str.contains "battle.net" (clean path_) = true
       ∨ Str.any_in custom_paths (clean path_) = true).
Proof.
  destruct (clean_counts filename) as (F1 & F2 & F3).
  destruct (clean_counts path_) as (P1 & P2 & P3).
  assert (Hdead : ∀ t, t ∈ ["epic games"; "origin games"; "riot games";
                            "gog games"; "xbox games"; "rockstar games"] →
            Str.contains (Str.replace_char "/" "\" t) (clean path_) = false).
  { intros t Ht. apply (not_in_clean " "); [done|].
    repeat (apply elem_of_cons in Ht as [->|Ht]); try (simpl; lia).
    by apply elem_of_nil in Ht. }
  split_and!.
  - apply (not_in_clean "_"); [done|simpl; lia].
  - exact Hdead.
  - unfold is_likely_game. cbv zeta.
    destruct (Str.any_in blacklist (clean filename)); [done|].
    destruct (Str.any_in popular_games (clean filename)); [by left|].
    destruct (Str.any_in popular_games (clean path_)); [by right; left|].
    cbn [orb].
    unfold platform_paths. cbn [existsb].
    rewrite (Hdead "epic games"), (Hdead "origin games"), (Hdead "riot games"),
      (Hdead "gog games"), (Hdead "xbox games"), (Hdead "rockstar games")
      by (repeat first [by left|right]).
    change (Str.replace_char "/" "\" "steamapps/common") with "steamapps\common".
    change (Str.replace_char "/" "\" "ubisoft") with "ubisoft".
    change (Str.replace_char "/" "\" "battle.net") with "battle.net".
    destruct (Str.contains "steamapps\common" (clean path_)); [by auto 10|].
    destruct (Str.contains "ubisoft" (clean path_)); [by auto 10|].
    destruct (Str.contains "battle.net" (clean path_)); [by auto 10|].
    cbn [orb andb].
    destruct (Str.any_in custom_paths (clean path_)); [by auto 10|done].
Qed.

Lemma classifier_dead_terms_witness :
  is_likely_game "game.exe" "C:\Program Files\Ubisoft\Anno" = true
  ∧ Str.contains "ubisoft" (clean "C:\Program Files\Ubisoft\Anno") = true
  ∧ is_likely_game "game.exe" "C:\Program Files\Epic Games\Anno" = false.
Proof.
  assert (H : is_likely_game "game.exe" "C:\Program Files\Ubisoft\Anno" = true)
    by (vm_compute; reflexivity).
  pose proof (proj2 (proj2 (classifier_dead_terms "game.exe"
                              "C:\Program Files\Ubisoft\Anno")) H) as K.
  split_and!; [exact H|vm_compute; reflexivity|vm_compute; reflexivity].
Defined.

(** X12. The classifier looks at the file name through its normalized
    form only, and normalizing twice is normalizing once: a name and its
    normalized form get the same answer, for files and for directories. *)
Theorem classifier_reads_normalized_names (s p : string) :
  clean (clean s) = clean s
  ∧ is_likely_game (clean s) p = is_likely_game s p
  ∧ is_likely_game_directory (clean s) = is_likely_game_directory s.
Proof.
  split_and!.
  - apply clean_idem.
  - unfold is_likely_game. cbv zeta. by rewrite clean_idem.
  - unfold is_likely_game_directory. by rewrite clean_idem.
Qed.

(** ** The card's path line, the custom directory and the search *)

Section Views.




Lemma contains_empty s : Str.contains "" s = true.
Proof. by destruct s. Qed.

Lemma elem_of_List_filter {A} (f : A → bool) l x :
  x ∈ List.filter f l ↔ x ∈ l ∧ f x = true.
Proof. rewrite !list_elem_of_In. apply filter_In. Qed.

End Views.



(** X14. Adding a custom directory merges, it does not replace: every
    game published before stays, and a game is added exactly when the deep
    scan of the directory found it, its path is not deleted and no
    published game has its path; the list is in order afterwards.  When
    the prompt is dismissed nothing happens. *)
Theorem add_custom_path_merges (w : world) (directory : string) (s : launcher) :
  String.eqb directory "" = false →
  (∀ g, g ∈ games (state_after (add_custom_path w directory) s) ↔
        g ∈ games s
        ∨ (g ∈ custom_found w directory
           ∧ (path g ∉ path <$> deleted_games s)
           ∧ (path g ∉ path <$> games s)))
  ∧ (ordered s → ordered (state_after (add_custom_path w directory) s))
  ∧ deleted_games (state_after (add_custom_path w directory) s) = deleted_games s
  ∧ add_custom_path w "" s = (tt, s, []).
Proof.
  intros Hd. rewrite add_custom_path_state, Hd.
  split_and!; [| |by destruct (custom_found w directory)|reflexivity].
  - intros g. destruct (custom_found w directory) as [|c cs] eqn:E.
    + split; [by left|]. by intros [?|[?%elem_of_nil _]].
    + cbn [games]. unfold merged_games.
      rewrite elem_of_sorted, elem_of_app, list_elem_of_filter,
        elem_of_drop_deleted. tauto.
  - unfold ordered. intros Hs. destruct (custom_found w directory); [done|].
    apply sorted_Sorted.
Qed.

Lemma add_custom_path_merges_witness :
  Game "Half Life" "D:\games\Half Life\hl.exe"
  ∈ games (state_after (add_custom_path world_c3 "D:\games") launcher_c8)
  ∧ doom ∈ games (state_after (add_custom_path world_c3 "D:\games") launcher_c8).
Proof.
  destruct (add_custom_path_merges world_c3 "D:\games" launcher_c8 eq_refl)
    as (H & _).
  split; apply H.
  - right. split_and!; [vm_compute; right; by left| |].
    + apply not_elem_of_nil.
    + vm_compute. intros Hin. apply list_elem_of_singleton in Hin. discriminate Hin.
  - left. by left.
Defined.

(** X15. The search keeps the games whose lowercased name holds the
    lowercased search text, in the order of the published list; the empty
    search keeps them all; the case of the search text does not matter. *)
Theorem filter_games_matches (s : launcher) :
  (∀ g, g ∈ filtered_games (state_after filter_games s) ↔
        g ∈ games s
        ∧ Str.contains (Str.lower (search s)) (Str.lower (name g)) = true)
  ∧ filtered_games (state_after filter_games s) `sublist_of` games s
  ∧ (search s = "" → filtered_games (state_after filter_games s) = games s)
  ∧ (∀ q, Str.lower q = Str.lower (search s) →
          filtered_games
            (state_after filter_games
               (Launcher (games s) (favorites s) (deleted_games s)
                         (filtered_games s) (scanning s) q))
          = filtered_games (state_after filter_games s))
  ∧ games (state_after filter_games s) = games s.
Proof.
  rewrite !filter_games_state. cbn [filtered_games set_filtered_games games].
  split_and!.
  - intros g. destruct (String.eqb (Str.lower (search s)) "") eqn:E.
    + apply String.eqb_eq in E. rewrite E, contains_empty. tauto.
    + apply (elem_of_List_filter
               (fun h => Str.contains (Str.lower (search s)) (Str.lower (name h)))).
  - destruct (String.eqb _ _); [done|apply List_filter_sublist].
  - by intros ->.
  - intros q Hq. rewrite filter_games_state. cbn [filtered_games set_filtered_games games search].
    by rewrite Hq.
  - done.
Qed.

Lemma filter_games_matches_witness :
  filtered_games (state_after filter_games (Launcher [doom] [] [] [] false ""))
  = [doom].
Proof.
  apply (proj1 (proj2 (proj2 (filter_games_matches
                                (Launcher [doom] [] [] [] false ""))))).
  reflexivity.
Defined.

(** X16. A whole scan pass makes the collections consistent whatever
    lists of name and path records they held, as after a launch with two
    documents that hold such lists: no published game and no favorite has a
    deleted path; the filtered view is the whole published list, whatever
    the search text is; the list is in order; the scan is over. *)
Theorem full_scan_establishes_consistency (w : world) (s : launcher) :
  consistent (state_after (full_scan w) s)
  ∧ filtered_games (state_after (full_scan w) s)
    = games (state_after (full_scan w) s)
  ∧ scanning (state_after (full_scan w) s) = false
  ∧ ordered (state_after (full_scan w) s)
  ∧ (∀ favs dels,
       ∃ s0 t, init (Records favs) (Records dels) = Returns (s0, t)
               ∧ favorites s0 = favs ∧ deleted_games s0 = dels
               ∧ consistent (state_after (full_scan w) s0)
               ∧ favorites (state_after (full_scan w) s0)
                 = filter (λ f, path f ∉ path <$> dels) favs).
Proof.
  assert (H : ∀ s, consistent (state_after (full_scan w) s)).
  { intros s0. rewrite full_scan_state. split_and!; cbn [games favorites deleted_games filtered_games].
    - by intros g [_ ?]%elem_of_reconcile.
    - by intros f [_ ?]%elem_of_drop_deleted.
    - done. }
  split_and!.
  - apply H.
  - rewrite full_scan_state. cbn [filtered_games games]. reflexivity.
  - rewrite full_scan_state. cbn [scanning]. reflexivity.
  - unfold ordered. rewrite full_scan_state. cbn [games]. apply sorted_Sorted.
  - intros favs dels. eexists _, _. split_and!; [reflexivity|reflexivity|reflexivity|apply H|].
    rewrite full_scan_state. reflexivity.
Qed.

(** ** The deep scan from a root that ends with a separator *)

Section DriveRoot.

Lemma count_join_terminated p d :
  sep_terminated p = true → entry_name d = true →
  Str.count Str.sep (Path.join p d) = Str.count Str.sep p.
Proof.
  unfold sep_terminated, Path.join. intros Hp [_ Hd%negb_true_iff]%andb_true_iff.
  destruct (Str.last _) as [c|]; [|done]. rewrite Hp, count_append.
  rewrite (has_sep_count _ Hd). lia.
Qed.

Lemma dir_at_count_terminated names directory :
  sep_terminated directory = true →
  Forall (λ d, entry_name d = true) names →
  Str.count Str.sep (dir_at directory names)
  ≤ Str.count Str.sep directory + (length names - 1).
Proof.
  intros Hp Hn. destruct names as [|d names]; simpl; [lia|].
  apply Forall_cons in Hn as [Hd Hn].
  change (dir_at directory (d :: names))
    with (dir_at (Path.join directory d) names).
  etrans; [by apply dir_at_count_le|].
  rewrite count_join_terminated by done. lia.
Qed.

End DriveRoot.

(** X17. From a root that ends with a separator (the root of a drive),
    the deep scan reaches one level further: the first level adds no
    separator to the path, so a qualifying executable in a directory up to
    4 levels below the root is returned. *)
Theorem deep_scan_from_drive_root (directory : string) (n : node)
  (names : list string) (entries : list (string * node)) (file : string) :
  sep_terminated directory = true →
  well_named n = true →
  reaches n names (Dir (Some entries)) →
  (file, File) ∈ entries →
  qualifies file (dir_at directory names) = true →
  length names ≤ 4 →
  candidate (dir_at directory names) file ∈ scan_directory_deep directory n [].
Proof.
  intros Hp Hwn Hreach Hfile Hq Hlen.
  destruct (reaches_well_named _ _ _ Hreach Hwn) as [Hnames _].
  unfold scan_directory_deep.
  eapply walk_finds; [exact Hreach|done|exact Hfile|exact Hq|].
  intros k Hk. apply too_deep_false.
  pose proof (dir_at_count_terminated (take k names) directory Hp) as Hc.
  rewrite length_take in Hc.
  etrans; [apply Hc; by apply Forall_take|]. lia.
Qed.

Lemma deep_scan_from_drive_root_witness :
  candidate (dir_at "D:\" ["a"; "b"; "c"; "d"]) "doom.exe"
  ∈ scan_directory_deep "D:\" tree_x17 []
  ∧ scan_directory_deep "D:\games" tree_x17 [] = [].
Proof.
  split; [|vm_compute; reflexivity].
  apply (deep_scan_from_drive_root "D:\" tree_x17 ["a"; "b"; "c"; "d"]
           [("doom.exe", File)] "doom.exe").
  - reflexivity.
  - reflexivity.
  - repeat (eapply reaches_down; [by left|]). apply reaches_here.
  - by left.
  - vm_compute. reflexivity.
  - simpl. lia.
Defined.
